(** * Laziest: the chain core and the gossip node, embedded in Rocq

    The development follows the Go sources:
    - [BigInt]: the wrapper of [math/big.Int] (kernel package);
    - [Block], [Chain]: [kernel/chain.go] over the [Block], [Transaction]
      and [PubKey] interfaces;
    - [Node]: the shared state of [network/node.go] and the atomic steps
      its goroutines take under [mainMtx].

    Go run-time failures (an index out of range, a failed type
    assertion) are explicit outcomes, a slice expression has outcomes
    of its own, and the one unbounded loop ([LazyInterval]) runs on
    fuel. *)

From Stdlib Require Import ZArith NArith Lia List Bool Ascii String.
From Stdlib Require Import Strings.Byte.
From Stdlib Require Import Sorting.Sorted Sorting.Permutation.
From Stdlib Require OrderedTypeEx.
From stdpp Require Import gmap strings list fin_maps.
Import ListNotations.

Local Open Scope Z_scope.

(** ** Outcomes of a Go call *)

Inductive panic : Type :=
  | IndexOutOfRange     (* s[i] with i >= len(s) *)
  | TypeAssertion.      (* x.(T) on nil or on a value that is no T *)

Inductive outcome (A : Type) : Type :=
  | Ret (a : A)         (* the call returns a *)
  | Panic (e : panic)   (* run-time panic *)
  | Timeout.            (* the fuel of the model ran out *)

Arguments Ret {A} a.
Arguments Panic {A} e.
Arguments Timeout {A}.

(** Sequencing: a panic or a timeout ends the call. *)
#[global] Instance outcome_bind : MBind outcome := fun A B k m =>
  match m with
  | Ret a => k a
  | Panic e => Panic e
  | Timeout => Timeout
  end.

#[global] Instance outcome_ret : MRet outcome := @Ret.

(** ** BigInt: [type BigIntT big.Int] *)

Module BigInt.

(** A [big.Int] is an arbitrary-precision signed integer. *)
Definition BigInt : Type := Z.

(** Digits of [n] in base [base], least significant first; [fuel]
    bounds the number of digits produced. *)
Fixpoint lsd_digits (fuel : nat) (base n : N) : list N :=
  match fuel with
  | O => []
  | S f =>
      if (n =? 0)%N then []
      else (n mod base)%N :: lsd_digits f base (n / base)%N
  end.

(** The digits of [n], most significant first, none for zero. *)
Definition digits (base n : N) : list N :=
  rev (lsd_digits (N.size_nat n) base n).

(** Horner evaluation of a digit sequence, most significant first. *)
Definition horner (base : N) (ds : list N) (acc : N) : N :=
  fold_left (fun a d => (base * a + d)%N) ds acc.

Definition ascii_of_digit (d : N) : ascii := ascii_of_N (48 + d).

Definition digit_of_ascii (c : ascii) : option N :=
  let n := N_of_ascii c in
  if ((48 <=? n) && (n <=? 57))%N then Some (n - 48)%N else None.

Definition byte_of_N (d : N) : byte :=
  match Byte.of_N d with Some b => b | None => x00 end.

(** [nat.scan] in base 10: every character is a decimal digit. *)
Fixpoint scan_digits (s : string) (acc : N) : option N :=
  match s with
  | EmptyString => Some acc
  | String c s' =>
      match digit_of_ascii c with
      | Some d => scan_digits s' (10 * acc + d)%N
      | None => None
      end
  end.

(** At least one digit is required. *)
Definition scan_nat (s : string) : option N :=
  match s with
  | EmptyString => None
  | _ => scan_digits s 0%N
  end.

(** [big.Int.SetString(s, 10)]: an optional sign, one or more
    decimal digits, and nothing else. *)
Definition SetString10 (s : string) : option Z :=
  match s with
  | String "-"%char s' => option_map (fun n => - Z.of_N n) (scan_nat s')
  | String "+"%char s' => option_map Z.of_N (scan_nat s')
  | _ => option_map Z.of_N (scan_nat s)
  end.

(** [big.Int.SetBytes]: big-endian unsigned. *)
Definition SetBytes (buf : list byte) : Z :=
  Z.of_N (horner 256 (map Byte.to_N buf) 0).

(** [big.Int.Text(10)]. *)
Definition decimal (n : N) : string :=
  match n with
  | 0%N => "0"%string
  | _ => string_of_list_ascii (map ascii_of_digit (digits 10 n))
  end.

Definition NewInt (strnum : string) : option BigInt := SetString10 strnum.

Definition LoadInt (bytes : list byte) : BigInt := SetBytes bytes.

Definition Inc (x : BigInt) : BigInt := x + 1.

(** [Cmp] returns -1, 0 or +1. *)
Definition Cmp (x y : BigInt) : Z :=
  match x ?= y with Lt => -1 | Eq => 0 | Gt => 1 end.

(** [big.Int.Bytes]: the absolute value, big-endian, minimal. *)
Definition Bytes (x : BigInt) : list byte :=
  map byte_of_N (digits 256 (Z.abs_N x)).

(** [big.Int.Uint64]: the low 64 bits of the absolute value. *)
Definition Uint64 (x : BigInt) : Z := Z.abs x mod 2 ^ 64.

(** [big.Int.String]: decimal, with a leading minus sign when
    negative. *)
Definition String (x : BigInt) : string :=
  if x <? 0 then String.String "-"%char (decimal (Z.abs_N x))
  else decimal (Z.abs_N x).

End BigInt.

(** ** Go slices *)

#[global] Instance byte_eq_dec : EqDecision byte := Byte.byte_eq_dec.

(** [bytes.Equal]. *)
Definition bytes_Equal (a b : list byte) : bool := bool_decide (a = b).

(** [s[i]] for an unsigned index [i]. *)
Definition index {A : Type} (s : list A) (i : Z) : outcome A :=
  if i <? Z.of_nat (length s) then
    match s !! Z.to_nat i with
    | Some a => Ret a
    | None => Panic IndexOutOfRange
    end
  else Panic IndexOutOfRange.

(** [s[lo:hi]] for unsigned bounds. Go checks [lo <= hi <= cap(s)]; the
    capacity of the backing array is not part of the model, so a bound
    past the length is an outcome of its own. *)
Inductive sliced (A : Type) : Type :=
  | Within (l : list A)   (* lo <= hi <= len(s): the elements [lo, hi) *)
  | PastLength            (* lo <= hi and len(s) < hi: a panic when
                             cap(s) < hi, else the backing array shows *)
  | Inverted.             (* hi < lo: panic, slice bounds out of range *)

Arguments Within {A} l.
Arguments PastLength {A}.
Arguments Inverted {A}.

Definition slice {A : Type} (s : list A) (lo hi : Z) : sliced A :=
  if hi <? lo then Inverted
  else if Z.of_nat (length s) <? hi then PastLength
  else Within (take (Z.to_nat (hi - lo)) (drop (Z.to_nat lo) s)).

(** [sort.SliceStable(s, less)]: the stable sort of [s], here by
    insertion: an element goes before the first one not less than it.
    The result of a stable sort does not depend on the algorithm
    ([stable_sort_unique] below). *)
Fixpoint insert_stable {A : Type} (less : A -> A -> bool) (x : A) (l : list A)
  : list A :=
  match l with
  | [] => [x]
  | y :: l' => if less y x then y :: insert_stable less x l' else x :: y :: l'
  end.

Definition SliceStable {A : Type} (less : A -> A -> bool) (s : list A) : list A :=
  foldr (insert_stable less) [] s.

(** ** The interfaces of the kernel package *)

(** [PubKey], from the crypto collaborator. *)
Class PubKeyOps (PubKey : Type) : Type := {
  Equal : PubKey -> PubKey -> bool;
  Address : PubKey -> string;
}.

(** [Transaction]: what the chain reads of one. *)
Module Transaction.
Record t (PubKey : Type) : Type := {
  Validator : PubKey;
  IsValid : bool;
}.
Arguments Validator {PubKey} _.
Arguments IsValid {PubKey} _.
End Transaction.

(** [Block]: the results of the interface's methods. [Range] returns
    [Objects], which the chain compares with nil ([None]) before it
    asserts it to [[]Transaction]. *)
Module Block.
Record t (PubKey : Type) : Type := {
  Hash : list byte;
  LastHash : list byte;
  Validator : PubKey;
  IsValid : bool;
  Length : BigInt.BigInt;
  Range : BigInt.BigInt -> BigInt.BigInt -> option (list (Transaction.t PubKey));
}.
Arguments Hash {PubKey} _.
Arguments LastHash {PubKey} _.
Arguments Validator {PubKey} _.
Arguments IsValid {PubKey} _.
Arguments Length {PubKey} _.
Arguments Range {PubKey} _ _ _.
End Block.

(** ** Chain: [kernel/chain.go] *)

Module Chain.
Section WithPubKey.

Context {PubKey : Type} `{PubKeyOps PubKey}.

#[local] Abbreviation Block := (Block.t PubKey).
#[local] Abbreviation Transaction := (Transaction.t PubKey).

Record ChainT : Type := {
  length : BigInt.BigInt;
  blocks : list Block;
}.

(** An [Object] handed to [Append]: the nil interface value, a block,
    or a value of another dynamic type. *)
Inductive Object : Type :=
  | ObjNil
  | ObjBlock (b : Block)
  | ObjTransaction (tx : Transaction).

(** [obj.(Block)]: panics on nil and on a value that is no [Block];
    the result is a [Block] interface value (nil is [None]). *)
Definition assertBlock (obj : Object) : outcome (option Block) :=
  match obj with
  | ObjBlock b => Ret (Some b)
  | ObjNil | ObjTransaction _ => Panic TypeAssertion
  end.

Definition Range (chain : ChainT) (x y : BigInt.BigInt) : sliced Block :=
  slice (blocks chain) (BigInt.Uint64 x) (BigInt.Uint64 y).

Definition Length (chain : ChainT) : BigInt.BigInt := length chain.

Definition LastHash (chain : ChainT) : outcome (list byte) :=
  let last := (BigInt.Uint64 (length chain) - 1) mod 2 ^ 64 in
  block ← index (blocks chain) last;
  mret (Block.Hash block).

(** The error is [None] for nil; the second component is the chain
    after the call. *)
Definition Append (chain : ChainT) (obj : Object)
  : outcome (option string * ChainT) :=
  block ← assertBlock obj;
  match block with
  | None => mret (Some "block is null"%string, chain)
  | Some block =>
      if negb (Block.IsValid block) then
        mret (Some "block is invalid"%string, chain)
      else
        last ← LastHash chain;
        if negb (bytes_Equal (Block.LastHash block) last) then
          mret (Some "relation is invalid"%string, chain)
        else
          mret (None, {| blocks := blocks chain ++ [block];
                         length := BigInt.Inc (length chain) |})
  end.

Definition Find (chain : ChainT) (hash : list byte) : option Block :=
  List.find (fun block => bytes_Equal hash (Block.Hash block)) (blocks chain).

Fixpoint IsValid_range (chain : ChainT) (rest : list Block) : outcome bool :=
  match rest with
  | [] => mret true
  | block :: rest' =>
      if negb (Block.IsValid block) then mret false
      else
        last ← LastHash chain;
        if negb (bytes_Equal (Block.LastHash block) last) then mret false
        else IsValid_range chain rest'
  end.

Definition IsValid (chain : ChainT) : outcome bool :=
  IsValid_range chain (blocks chain).

(** The [for] loop of [LazyInterval]; 0 and -1 are [NewInt("0")] and
    [NewInt("-1")]. *)
Fixpoint LazyInterval_loop (fuel : nat) (chain : ChainT) (pub : PubKey)
    (block : Block) (diff : BigInt.BigInt) : outcome BigInt.BigInt :=
  match fuel with
  | O => Timeout
  | S fuel' =>
      if Equal pub (Block.Validator block) then mret diff
      else
        match Block.Range block 0 (Block.Length block) with
        | None => mret (-1)
        | Some txs =>
            if existsb (fun tx => Equal pub (Transaction.Validator tx)) txs
            then mret diff
            else
              match Find chain (Block.LastHash block) with
              | None => mret (-1)
              | Some block' =>
                  LazyInterval_loop fuel' chain pub block' (BigInt.Inc diff)
              end
        end
  end.

Definition LazyInterval (fuel : nat) (chain : ChainT) (pub : PubKey)
  : outcome BigInt.BigInt :=
  last ← LastHash chain;
  match Find chain last with
  | None => Panic TypeAssertion
  | Some block => LazyInterval_loop fuel chain pub block 0
  end.

(** The [range validators] loop of [SelectLazy], from the state
    [(finds, diff)]. *)
Fixpoint SelectLazy_range (fuel : nat) (chain : ChainT)
    (validators : list PubKey) (finds : list PubKey) (diff : BigInt.BigInt)
  : outcome (list PubKey) :=
  match validators with
  | [] => mret finds
  | pub :: rest =>
      lazyLevel ← LazyInterval fuel chain pub;
      if BigInt.Cmp lazyLevel diff >? 0 then
        SelectLazy_range fuel chain rest [pub] lazyLevel
      else if BigInt.Cmp lazyLevel diff =? 0 then
        SelectLazy_range fuel chain rest (finds ++ [pub]) diff
      else
        SelectLazy_range fuel chain rest finds diff
  end.

Definition less (p q : PubKey) : bool :=
  match String.compare (Address p) (Address q) with Lt => true | _ => false end.

(** [finds[0] = finds[rnum%lenpub]] is an update in range: it is
    reached with more than one candidate in [finds]. *)
Definition SelectLazy (fuel : nat) (chain : ChainT) (validators : list PubKey)
  : outcome PubKey :=
  finds ← SelectLazy_range fuel chain validators [] 0;
  let lenpub := Z.of_nat (List.length finds) in
  finds ← (if lenpub >? 1 then
             let finds := SliceStable less finds in
             last ← LastHash chain;
             let rnum := BigInt.Uint64 (BigInt.LoadInt last) in
             pub ← index finds (rnum mod lenpub);
             mret (<[0%nat := pub]> finds)
           else mret finds);
  index finds 0.

End WithPubKey.
End Chain.

(** ** Node: [network/node.go] *)

Module Node.

(** A connection and a handler function are identities; a message is
    what its methods return. *)
Definition Conn : Type := nat.
Definition MsgType : Type := Z.
Definition HandleFunc : Type := nat.

Record Message : Type := {
  Head : MsgType;
  Body : list byte;
  Nonce : list byte;
  Hash : string;
  Bytes : list byte;
}.

Record NodeT : Type := {
  mapping : gmap string bool;
  connections : gmap Conn bool;
  handleRoutes : gmap MsgType HandleFunc;
}.

Definition NewNode : NodeT :=
  {| mapping := ∅; connections := ∅; handleRoutes := ∅ |}.

(** The goroutine of [handleConn]: its failure counter and where it
    stands in the loop body. *)
Inductive point : Type :=
  | AtRead                     (* at the head of the loop *)
  | AtSetMapping (msg : Message)  (* [inMapping] said no *)
  | AtHandleFunc (msg : Message). (* [setMapping] is done *)

Record reader : Type := {
  counter : Z;
  at_point : point;
}.

(** The node and the goroutines around it. [checked] holds the
    connections that passed [hasMaxConnSize] in [Listen] or [Connect]
    and wait for [setConnection]; [calls] logs the handler
    invocations, latest first; [closed] the connections closed. *)
Record World : Type := {
  node : NodeT;
  readers : gmap Conn reader;
  checked : gset Conn;
  calls : list (HandleFunc * Conn * Message);
  closed : gset Conn;
}.

Definition NewWorld : World :=
  {| node := NewNode; readers := ∅; checked := ∅; calls := []; closed := ∅ |}.

(** What a goroutine does in one atomic step. The scheduler, the
    network and Go's map iteration order choose the label. *)
Inductive label : Type :=
  | AcceptCheck (conn : Conn)            (* Listen: Accept, hasMaxConnSize *)
  | AcceptRole (conn : Conn) (whoIs : byte) (* Listen: Read, the switch *)
  | ConnectCheck (conn : Conn)           (* Connect: hasMaxConnSize, Dial *)
  | ConnectSet (conn : Conn)             (* Connect: setConnection *)
  | CallDisconnect (conn : Conn)
  | CallHandle (tmsg : MsgType) (handle : HandleFunc)
  | CallBroadcast (msg : Message) (first : string)
  | RecvNil (conn : Conn)                (* ReadMessage returned nil *)
  | Recv (conn : Conn) (msg : Message)   (* ReadMessage, inMapping *)
  | SetMapping (conn : Conn) (first : string)
  | RunHandleFunc (conn : Conn)            (* handleFunc *)
  | Exit (conn : Conn).                  (* break, delConnection *)

Section WithSettings.

(** The constants of the network package's settings. *)
Variables (ConnSize MappSize RetrySize : Z) (IsNode IsClient : byte).

(** *** The critical sections under [mainMtx] *)

Definition setFunction (n : NodeT) (tmsg : MsgType) (handle : HandleFunc) : NodeT :=
  {| mapping := mapping n; connections := connections n;
     handleRoutes := <[tmsg := handle]> (handleRoutes n) |}.

Definition getFunction (n : NodeT) (tmsg : MsgType) : option HandleFunc :=
  handleRoutes n !! tmsg.

Definition hasMaxConnSize (n : NodeT) : bool :=
  Z.of_nat (size (connections n)) >? ConnSize.

Definition setConnection (n : NodeT) (conn : Conn) : NodeT :=
  {| mapping := mapping n; connections := <[conn := true]> (connections n);
     handleRoutes := handleRoutes n |}.

Definition delConnection (n : NodeT) (conn : Conn) : NodeT :=
  {| mapping := mapping n; connections := delete conn (connections n);
     handleRoutes := handleRoutes n |}.

Definition inMapping (n : NodeT) (hash : string) : bool :=
  bool_decide (is_Some (mapping n !! hash)).

(** [first] is the key the [range] over the map yields first. *)
Definition setMapping (first : string) (n : NodeT) (hash : string) : NodeT :=
  let evicted :=
    if Z.of_nat (size (mapping n)) >? MappSize
    then delete first (mapping n)
    else mapping n in
  {| mapping := <[hash := true]> evicted; connections := connections n;
     handleRoutes := handleRoutes n |}.

(** [first] can be the first key of the range only if it is a key. *)
Definition first_key (first : string) (n : NodeT) : bool :=
  if Z.of_nat (size (mapping n)) >? MappSize
  then bool_decide (is_Some (mapping n !! first))
  else true.

(** *** The steps *)

Definition with_node (w : World) (n : NodeT) : World :=
  {| node := n; readers := readers w; checked := checked w;
     calls := calls w; closed := closed w |}.

Definition with_reader (w : World) (conn : Conn) (r : reader) : World :=
  {| node := node w; readers := <[conn := r]> (readers w);
     checked := checked w; calls := calls w; closed := closed w |}.

Definition spawn (w : World) (conn : Conn) : World :=
  with_reader w conn {| counter := 0; at_point := AtRead |}.

Definition close (w : World) (conn : Conn) : World :=
  {| node := node w; readers := readers w; checked := checked w;
     calls := calls w; closed := {[conn]} ∪ closed w |}.

Definition check (w : World) (conn : Conn) : World :=
  {| node := node w; readers := readers w;
     checked := {[conn]} ∪ checked w; calls := calls w; closed := closed w |}.

Definition uncheck (w : World) (conn : Conn) : World :=
  {| node := node w; readers := readers w;
     checked := checked w ∖ {[conn]}; calls := calls w; closed := closed w |}.

(** The reader of [conn] when it stands at the head of the loop and
    has not used up its retries. *)
Definition reading (w : World) (conn : Conn) : option reader :=
  match readers w !! conn with
  | Some r =>
      match at_point r with
      | AtRead => if counter r =? RetrySize then None else Some r
      | _ => None
      end
  | None => None
  end.

Definition step (l : label) (w : World) : option World :=
  match l with
  | AcceptCheck conn =>
      if hasMaxConnSize (node w) then Some (close w conn)
      else Some (check w conn)
  | AcceptRole conn whoIs =>
      if bool_decide (conn ∈ checked w) then
        let w := uncheck w conn in
        if bool_decide (whoIs = IsNode) then
          Some (spawn (with_node w (setConnection (node w) conn)) conn)
        else if bool_decide (whoIs = IsClient) then Some (spawn w conn)
        else Some (close w conn)
      else None
  | ConnectCheck conn =>
      if hasMaxConnSize (node w) then Some w else Some (check w conn)
  | ConnectSet conn =>
      if bool_decide (conn ∈ checked w) then
        let w := uncheck w conn in
        Some (spawn (with_node w (setConnection (node w) conn)) conn)
      else None
  | CallDisconnect conn =>
      Some (close (with_node w (delConnection (node w) conn)) conn)
  | CallHandle tmsg handle =>
      Some (with_node w (setFunction (node w) tmsg handle))
  | CallBroadcast msg first =>
      if first_key first (node w)
      then Some (with_node w (setMapping first (node w) (Hash msg)))
      else None
  | RecvNil conn =>
      r ← reading w conn;
      Some (with_reader w conn {| counter := counter r + 1; at_point := AtRead |})
  | Recv conn msg =>
      r ← reading w conn;
      if inMapping (node w) (Hash msg) then Some w
      else Some (with_reader w conn
                   {| counter := counter r; at_point := AtSetMapping msg |})
  | SetMapping conn first =>
      r ← readers w !! conn;
      match at_point r with
      | AtSetMapping msg =>
          if first_key first (node w) then
            Some (with_reader (with_node w (setMapping first (node w) (Hash msg)))
                    conn {| counter := counter r; at_point := AtHandleFunc msg |})
          else None
      | _ => None
      end
  | RunHandleFunc conn =>
      r ← readers w !! conn;
      match at_point r with
      | AtHandleFunc msg =>
          match getFunction (node w) (Head msg) with
          | Some f =>
              let w := with_reader w conn {| counter := 0; at_point := AtRead |} in
              Some {| node := node w; readers := readers w; checked := checked w;
                      calls := (f, conn, msg) :: calls w; closed := closed w |}
          | None =>
              Some (with_reader w conn
                      {| counter := counter r + 1; at_point := AtRead |})
          end
      | _ => None
      end
  | Exit conn =>
      r ← readers w !! conn;
      match at_point r with
      | AtRead =>
          if counter r =? RetrySize then
            let w := close (with_node w (delConnection (node w) conn)) conn in
            Some {| node := node w; readers := delete conn (readers w);
                    checked := checked w; calls := calls w; closed := closed w |}
          else None
      | _ => None
      end
  end.

(** A schedule, run from left to right. *)
Fixpoint run (ls : list label) (w : World) : option World :=
  match ls with
  | [] => Some w
  | l :: ls' => w' ← step l w; run ls' w'
  end.

End WithSettings.

(** The reader holds a message with this hash: it has read it, found
    it missing from the seen-set, and has not yet handled it. *)
Definition holds (hash : string) (r : reader) : bool :=
  match at_point r with
  | AtRead => false
  | AtSetMapping msg | AtHandleFunc msg => String.eqb (Hash msg) hash
  end.

Definition none_holds (hash : string) (w : World) : Prop :=
  forall conn r, readers w !! conn = Some r -> holds hash r = false.

(** The handler invocations for messages with this hash. *)
Definition handled (hash : string) (cs : list (HandleFunc * Conn * Message))
  : list (HandleFunc * Conn * Message) :=
  List.filter (fun c => String.eqb (Hash (snd c)) hash) cs.

(** The hash is in the seen-set after every step of the schedule: no
    [setMapping] has evicted it. *)
Fixpoint stays_seen (ConnSize MappSize RetrySize : Z) (IsNode IsClient : byte)
    (hash : string) (ls : list label) (w : World) : bool :=
  match ls with
  | [] => true
  | l :: ls' =>
      match step ConnSize MappSize RetrySize IsNode IsClient l w with
      | Some w' =>
          inMapping (node w') hash
          && stays_seen ConnSize MappSize RetrySize IsNode IsClient hash ls' w'
      | None => true
      end
  end.

End Node.

(** ** What the spec says of a valid chain, and sample data *)

Module Spec.
Section WithPubKey.

Context {PubKey : Type} `{PubKeyOps PubKey}.

(** "For every i > 0, blocks[i].LastHash == blocks[i-1].Hash", and
    the genesis block's LastHash is ChainID: [prev] is the hash the
    next block must link to. *)
Fixpoint linked (prev : list byte) (bs : list (Block.t PubKey)) : bool :=
  match bs with
  | [] => true
  | b :: bs' => bytes_Equal (Block.LastHash b) prev && linked (Block.Hash b) bs'
  end.

(** "Every block individually valid and consistent back-link chain." *)
Definition IsValid (ChainID : list byte) (chain : Chain.ChainT) : bool :=
  forallb Block.IsValid (Chain.blocks chain) && linked ChainID (Chain.blocks chain).

(** [pub] appears in [block]: as its validator or as the validator of
    a transaction of [Range(0, Length())]. *)
Definition appears (pub : PubKey) (block : Block.t PubKey) : bool :=
  Equal pub (Block.Validator block)
  || existsb (fun tx => Equal pub (Transaction.Validator tx))
       (default [] (Block.Range block 0 (Block.Length block))).

(** "The number of blocks one must walk back from the tail before
    encountering a block in which pub appears"; [walk] lists the
    blocks tail first. *)
Fixpoint walk_back (pub : PubKey) (walk : list (Block.t PubKey)) : option Z :=
  match walk with
  | [] => None
  | b :: rest =>
      if appears pub b then Some 0 else Z.succ <$> walk_back pub rest
  end.

(** The lazy interval: "-1 if never". *)
Definition LazyInterval (chain : Chain.ChainT) (pub : PubKey) : Z :=
  default (-1) (walk_back pub (rev (Chain.blocks chain))).

(** The chain invariant of the data model ([length == |blocks|], a
    genesis block, back-links), with a hash that tells the blocks and
    ChainID apart, and blocks that hand out their transactions. *)
Record well_formed (ChainID : list byte) (chain : Chain.ChainT) : Prop := {
  wf_length : Chain.length chain = Z.of_nat (length (Chain.blocks chain));
  wf_genesis : Chain.blocks chain <> [];
  wf_small : Chain.length chain < 2 ^ 64;
  wf_linked : linked ChainID (Chain.blocks chain) = true;
  wf_hashes : NoDup (Block.Hash <$> Chain.blocks chain);
  wf_ChainID : ChainID ∉ Block.Hash <$> Chain.blocks chain;
  wf_ranges : Forall (fun b => Block.Range b 0 (Block.Length b) <> None)
                (Chain.blocks chain);
}.

(** The greatest level of the candidates, and no less than [floor]. *)
Definition greatest (level : PubKey -> Z) (floor : Z) (validators : list PubKey) : Z :=
  foldl (fun m q => Z.max m (level q)) floor validators.

(** The candidates of level [M], in the order of the list. *)
Definition tied (level : PubKey -> Z) (M : Z) (validators : list PubKey)
  : list PubKey :=
  List.filter (fun q => level q =? M) validators.

(** [sorted] is [candidates] "sorted by Address() lexicographically
    ascending (stable)". *)
Definition sorted_by_Address (candidates sorted : list PubKey) : Prop :=
  Permutation candidates sorted
  /\ Sorted (fun p q => String.leb (Address p) (Address q) = true) sorted
  /\ forall a : string,
       List.filter (fun p => bool_decide (Address p = a)) sorted
       = List.filter (fun p => bool_decide (Address p = a)) candidates.

End WithPubKey.
End Spec.

Module Sample.

(** Public keys named by their address. *)
#[global] Instance string_PubKey : PubKeyOps string :=
  {| Equal := String.eqb; Address := fun pub => pub |}.

Definition tx (validator : string) : Transaction.t string :=
  {| Transaction.Validator := validator; Transaction.IsValid := true |}.

(** Modelled from the spec: the [Block] implementation is not among
    the sources; a sample block holds a list of transactions,
    [Range(lo, hi)] is "the contiguous subsequence of transactions
    [lo, hi)" and [Length()] the "transaction count". *)
Definition block (hash lastHash : list byte) (validator : string)
    (txs : list (Transaction.t string)) : Block.t string :=
  {| Block.Hash := hash;
     Block.LastHash := lastHash;
     Block.Validator := validator;
     Block.IsValid := true;
     Block.Length := Z.of_nat (length txs);
     Block.Range := fun lo hi =>
       Some (take (Z.to_nat (hi - lo)) (drop (Z.to_nat lo) txs)) |}.

Definition ChainID : list byte := [x4c; x41; x5a; x59].

Definition genesis : Block.t string := block [x0a; x01] ChainID "alice" [].

(** What [NewChain] returns: the genesis block alone, length 1. *)
Definition chain1 : Chain.ChainT :=
  {| Chain.blocks := [genesis]; Chain.length := 1 |}.

Definition second : Block.t string :=
  block [x0b; x02] [x0a; x01] "bob" [tx "carol"].

Definition third : Block.t string :=
  block [x07] [x0b; x02] "carol" [tx "alice"; tx "bob"].

Definition chain2 : Chain.ChainT :=
  {| Chain.blocks := [genesis; second]; Chain.length := 2 |}.

(** The same blocks under a [length] past 64 bits. *)
Definition overlong : Chain.ChainT :=
  {| Chain.blocks := [genesis; second]; Chain.length := 2 ^ 64 + 2 |}.

(** Its last hash, read as an unsigned number, is 7. *)
Definition chain3 : Chain.ChainT :=
  {| Chain.blocks := [genesis; second; third]; Chain.length := 3 |}.

(** The candidates of the tie-break scenario and their levels on
    [chain3]: each appears in the tail block. *)
Definition candidates : list string := ["carol"; "bob"; "alice"]%string.
Definition in_tail (pub : string) : Z := 0.

(** A block whose [Range] returns nil, on top of the genesis block. *)
Definition opaque_block : Block.t string :=
  {| Block.Hash := [x0d];
     Block.LastHash := [x0a; x01];
     Block.Validator := "bob"%string;
     Block.IsValid := true;
     Block.Length := 0;
     Block.Range := fun _ _ => None |}.

Definition opaque_chain : Chain.ChainT :=
  {| Chain.blocks := [genesis; opaque_block]; Chain.length := 2 |}.

(** A block that links to itself. *)
Definition loop_block : Block.t string := block [x0c] [x0c] "alice" [].

Definition loop_chain : Chain.ChainT :=
  {| Chain.blocks := [loop_block]; Chain.length := 1 |}.

(** Sample settings of the network package and a node that holds
    [ConnSize] connections, two peers having dialled in. *)
Definition ConnSize : Z := 2.
Definition MappSize : Z := 2.
Definition RetrySize : Z := 3.
Definition IsNode : byte := x01.
Definition IsClient : byte := x02.

Definition step := Node.step ConnSize MappSize RetrySize IsNode IsClient.
Definition run := Node.run ConnSize MappSize RetrySize IsNode IsClient.

Definition two_peers : Node.World :=
  default Node.NewWorld
    (run [Node.AcceptCheck 1%nat; Node.AcceptRole 1%nat IsNode;
          Node.AcceptCheck 2%nat; Node.AcceptRole 2%nat IsNode] Node.NewWorld).

Definition message (head : Z) (hash : string) : Node.Message :=
  {| Node.Head := head; Node.Body := []; Node.Nonce := [];
     Node.Hash := hash; Node.Bytes := [] |}.

(** A node with a handler for messages of type 7. *)
Definition with_handler : Node.World :=
  default Node.NewWorld (run [Node.CallHandle 7 5%nat] Node.NewWorld).

(** [Broadcast] of a message of that type, then a peer that sends
    copies of it (and a frame that does not decode). *)
Definition gossip : Node.Message := message 7 "h".

Definition broadcast : Node.World :=
  default Node.NewWorld (step (Node.CallBroadcast gossip "") with_handler).

(** What the node meets after the [Broadcast]: a peer is dialled and
    sends a copy, another message, a frame that does not decode, and a
    copy again. *)
Definition traffic : list Node.label :=
  [Node.ConnectCheck 1%nat; Node.ConnectSet 1%nat;
   Node.Recv 1%nat gossip;
   Node.Recv 1%nat (message 7 "a"); Node.SetMapping 1%nat ""; Node.RunHandleFunc 1%nat;
   Node.RecvNil 1%nat; Node.Recv 1%nat gossip].

Definition after_traffic : Node.World :=
  default Node.NewWorld (run traffic broadcast).

(** A node whose seen-set holds [MappSize] hashes. *)
Definition two_seen : Node.NodeT :=
  Node.setMapping MappSize "" (Node.setMapping MappSize "" Node.NewNode "a") "b".

(** A node with one peer, dialled by [Connect], and its reader. *)
Definition peer : Node.World :=
  default Node.NewWorld
    (run [Node.ConnectCheck 1%nat; Node.ConnectSet 1%nat] Node.NewWorld).

(** The same with a handler for messages of type 7. *)
Definition peer_with_handler : Node.World :=
  default Node.NewWorld (step (Node.CallHandle 7 5%nat) peer).

(** Three inbound peers, one more than [ConnSize]. *)
Definition accept_three : list Node.label :=
  [Node.AcceptCheck 1%nat; Node.AcceptRole 1%nat IsNode;
   Node.AcceptCheck 2%nat; Node.AcceptRole 2%nat IsNode;
   Node.AcceptCheck 3%nat; Node.AcceptRole 3%nat IsNode].

Definition three_peers : Node.World :=
  default Node.NewWorld (run accept_three Node.NewWorld).

(** A node with one peer, a handler for type 7 and a seen-set over
    [MappSize]. *)
Definition crowded : Node.World :=
  default Node.NewWorld
    (run [Node.CallBroadcast (message 7 "a") ""; Node.CallBroadcast (message 7 "b") "";
          Node.CallBroadcast (message 7 "c") ""] peer_with_handler).

(** After [Broadcast] of [gossip]: three more broadcasts, the last of
    which evicts the hash of [gossip]; a copy is received and handled;
    a fourth broadcast evicts the hash again, and so is the next copy. *)
Definition evicting : list Node.label :=
  [Node.CallBroadcast (message 7 "a") ""; Node.CallBroadcast (message 7 "b") "";
   Node.CallBroadcast (message 7 "c") "h";
   Node.Recv 1%nat gossip; Node.SetMapping 1%nat "a"; Node.RunHandleFunc 1%nat;
   Node.CallBroadcast (message 7 "d") "h";
   Node.Recv 1%nat gossip; Node.SetMapping 1%nat "b"; Node.RunHandleFunc 1%nat].

(** Two inbound peers and a handler for type 7. *)
Definition two_with_handler : Node.World :=
  default Node.NewWorld (step (Node.CallHandle 7 5%nat) two_peers).

(** An inbound connection between the check and its role byte. *)
Definition waiting : Node.World :=
  default Node.NewWorld (step (Node.AcceptCheck 1%nat) Node.NewWorld).

End Sample.

(** ** Notions the further properties are stated with *)

Module Notions.

(** A byte string without its leading zero bytes. *)
Fixpoint strip_zeros (b : list byte) : list byte :=
  match b with
  | x00 :: b' => strip_zeros b'
  | _ => b
  end.

(** Digit lists, least significant first, whose last digit is not 0. *)
Fixpoint trimmed (l : list N) : Prop :=
  match l with
  | [] => True
  | [d] => d <> 0%N
  | _ :: l' => trimmed l'
  end.

Definition is_digit (c : ascii) : Prop :=
  (48 <= N_of_ascii c <= 57)%N.

(** An optional sign, then one or more decimal digits. *)
Definition signed_decimal (s : string) : Prop :=
  exists (sign digits : string),
    (sign = ""%string \/ sign = "+"%string \/ sign = "-"%string)
    /\ digits <> ""%string
    /\ Forall is_digit (list_ascii_of_string digits)
    /\ s = (sign ++ digits)%string.

(** A step that checks [hasMaxConnSize] for a new connection. *)
Definition admission (l : Node.label) : bool :=
  match l with
  | Node.AcceptCheck _ | Node.ConnectCheck _ => true
  | _ => false
  end.

(** A schedule in which no connection is checked while another one
    waits between its check and [setConnection]: the accept loop of one
    [Listen], with no [Connect] in between. *)
Fixpoint serial (ConnSize MappSize RetrySize : Z) (IsNode IsClient : byte)
    (ls : list Node.label) (w : Node.World) : Prop :=
  match ls with
  | [] => True
  | l :: ls' =>
      (admission l = true -> Node.checked w = ∅)
      /\ match Node.step ConnSize MappSize RetrySize IsNode IsClient l w with
         | Some w' => serial ConnSize MappSize RetrySize IsNode IsClient ls' w'
         | None => True
         end
  end.

End Notions.

(** * Theorems *)

(** ** BigInt *)

Section BigIntFacts.

Import BigInt.

Lemma horner_rev (base : N) (l : list N) (acc : N) :
  horner base (rev l) acc = fold_right (fun d a => (base * a + d)%N) acc l.
Proof.
  unfold horner. rewrite <- (rev_involutive l) at 2.
  now rewrite fold_left_rev_right.
Qed.

Lemma lsd_digits_value (base : N) (fuel : nat) :
  (2 <= base)%N ->
  forall n, (n < 2 ^ N.of_nat fuel)%N ->
  fold_right (fun d a => (base * a + d)%N) 0%N (lsd_digits fuel base n) = n.
Proof.
  intros Hb. induction fuel as [|f IH]; intros n Hn.
  - simpl in *. lia.
  - cbn [lsd_digits]. destruct (N.eqb_spec n 0) as [->|Hnz]; [reflexivity|].
    cbn [fold_right]. rewrite IH.
    + symmetry. apply N.div_mod. lia.
    + rewrite Nat2N.inj_succ, N.pow_succ_r' in Hn.
      apply N.Div0.div_lt_upper_bound.
      nia.
Qed.

Lemma lsd_digits_bounded (base : N) (fuel : nat) (n : N) :
  (0 < base)%N -> Forall (fun d => (d < base)%N) (lsd_digits fuel base n).
Proof.
  intros Hb. revert n. induction fuel as [|f IH]; intros n; cbn [lsd_digits].
  - constructor.
  - destruct (n =? 0)%N; constructor; [apply N.mod_lt; lia | apply IH].
Qed.

Lemma size_nat_bound (n : N) : (n < 2 ^ N.of_nat (N.size_nat n))%N.
Proof.
  destruct n as [|p]; [reflexivity|]. cbn [N.size_nat].
  induction p as [p IH|p IH|]; cbn [Pos.size_nat];
    rewrite ?Nat2N.inj_succ, ?N.pow_succ_r'; lia.
Qed.

Lemma digits_value (base n : N) :
  (2 <= base)%N -> horner base (digits base n) 0 = n.
Proof.
  intros Hb. unfold digits. rewrite horner_rev.
  apply lsd_digits_value; [assumption | apply size_nat_bound].
Qed.

Lemma digits_bounded (base n : N) :
  (0 < base)%N -> Forall (fun d => (d < base)%N) (digits base n).
Proof.
  intros Hb. unfold digits. apply Forall_rev. now apply lsd_digits_bounded.
Qed.

Lemma digits_nonempty (base n : N) : n <> 0%N -> digits base n <> [].
Proof.
  intros Hn Hnil. unfold digits in Hnil.
  apply (f_equal (@rev N)) in Hnil. rewrite rev_involutive in Hnil.
  destruct n as [|p]; [congruence|].
  destruct p; discriminate Hnil.
Qed.

Lemma digit_of_ascii_of_digit (d : N) :
  (d < 10)%N -> digit_of_ascii (ascii_of_digit d) = Some d.
Proof.
  intros Hd. unfold digit_of_ascii, ascii_of_digit.
  rewrite N_ascii_embedding by lia.
  replace ((48 <=? 48 + d)%N) with true by (symmetry; apply N.leb_le; lia).
  replace ((48 + d <=? 57)%N) with true by (symmetry; apply N.leb_le; lia).
  cbn [andb]. f_equal. lia.
Qed.

Lemma scan_digits_render (ds : list N) :
  Forall (fun d => (d < 10)%N) ds ->
  forall acc,
    scan_digits (string_of_list_ascii (map ascii_of_digit ds)) acc
    = Some (horner 10 ds acc).
Proof.
  induction 1 as [|d ds Hd _ IH]; intros acc; cbn.
  - reflexivity.
  - rewrite digit_of_ascii_of_digit by assumption. apply IH.
Qed.

Lemma decimal_head (n : N) :
  exists d rest, (d < 10)%N /\ decimal n = String.String (ascii_of_digit d) rest.
Proof.
  destruct (N.eq_dec n 0%N) as [->|Hn].
  - exists 0%N, EmptyString. split; [lia | reflexivity].
  - pose proof (digits_bounded 10 n ltac:(lia)) as Hb.
    pose proof (digits_nonempty 10 n Hn) as Hne.
    unfold decimal. destruct n as [|p]; [congruence|].
    destruct (digits 10 (N.pos p)) as [|d ds]; [congruence|].
    inversion Hb; subst. exists d. eexists. split; [eassumption | reflexivity].
Qed.

Lemma scan_nat_decimal (n : N) : scan_nat (decimal n) = Some n.
Proof.
  destruct (decimal_head n) as (d & rest & _ & Hhead).
  unfold scan_nat. rewrite Hhead, <- Hhead. clear d rest Hhead.
  unfold decimal. destruct n as [|p]; [reflexivity|].
  rewrite scan_digits_render by (apply digits_bounded; lia).
  f_equal. apply digits_value. lia.
Qed.

Lemma SetString10_unsigned (c : ascii) (rest : string) :
  c <> "-"%char -> c <> "+"%char ->
  SetString10 (String.String c rest)
  = option_map Z.of_N (scan_nat (String.String c rest)).
Proof.
  intros Hminus Hplus. unfold SetString10.
  destruct c as [[] [] [] [] [] [] [] []]; congruence.
Qed.

Lemma ascii_of_digit_not_sign (d : N) :
  (d < 10)%N ->
  ascii_of_digit d <> "-"%char /\ ascii_of_digit d <> "+"%char.
Proof.
  intros Hd. pose proof (digit_of_ascii_of_digit d Hd) as Hdig.
  split; intros Heq; rewrite Heq in Hdig; discriminate Hdig.
Qed.

Lemma NewInt_decimal (n : N) : NewInt (decimal n) = Some (Z.of_N n).
Proof.
  unfold NewInt.
  destruct (decimal_head n) as (d & rest & Hd & Hhead).
  destruct (ascii_of_digit_not_sign d Hd) as [Hminus Hplus].
  rewrite Hhead, SetString10_unsigned, <- Hhead by assumption.
  now rewrite scan_nat_decimal.
Qed.

Lemma NewInt_String (x : Z) : NewInt (String x) = Some x.
Proof.
  unfold String. destruct (Z.ltb_spec x 0) as [Hneg|Hpos].
  - unfold NewInt, SetString10. rewrite scan_nat_decimal. cbn [option_map].
    f_equal. lia.
  - rewrite NewInt_decimal. f_equal. lia.
Qed.

Lemma to_N_byte_of_N (d : N) : (d < 256)%N -> Byte.to_N (byte_of_N d) = d.
Proof.
  intros Hd. unfold byte_of_N.
  destruct (Byte.of_N d) as [b|] eqn:Hb.
  - now apply Byte.to_of_N.
  - apply Byte.of_N_None_iff in Hb. lia.
Qed.

Lemma LoadInt_Bytes (x : Z) : LoadInt (Bytes x) = Z.abs x.
Proof.
  unfold LoadInt, SetBytes, Bytes. rewrite map_map.
  rewrite (map_ext_in _ (fun d => d)).
  - rewrite map_id, digits_value by lia. lia.
  - intros d Hd. apply to_N_byte_of_N.
    pose proof (digits_bounded 256%N (Z.abs_N x) ltac:(lia)) as Hb.
    rewrite List.Forall_forall in Hb. now apply Hb.
Qed.

End BigIntFacts.

(** ** Go slices *)

Section SliceFacts.

Context {A : Type}.

Lemma index_lookup (s : list A) (i : nat) (a : A) :
  s !! i = Some a -> index s (Z.of_nat i) = Ret a.
Proof.
  intros Hi. unfold index. pose proof (lookup_lt_Some _ _ _ Hi) as Hlt.
  destruct (Z.ltb_spec (Z.of_nat i) (Z.of_nat (length s))); [|lia].
  now rewrite Nat2Z.id, Hi.
Qed.

Lemma index_out_of_range (s : list A) (i : Z) :
  Z.of_nat (length s) <= i -> index s i = Panic IndexOutOfRange.
Proof.
  intros Hi. unfold index.
  destruct (Z.ltb_spec i (Z.of_nat (length s))); [lia | reflexivity].
Qed.

Lemma index_Ret (s : list A) (i : Z) (a : A) :
  0 <= i -> index s i = Ret a -> s !! Z.to_nat i = Some a.
Proof.
  intros Hi. unfold index.
  destruct (i <? Z.of_nat (length s)); [|discriminate].
  destruct (s !! Z.to_nat i); [|discriminate]. congruence.
Qed.

End SliceFacts.

(** ** The stable sort *)

Section SortFacts.

(** [less] compares keys by an irreflexive, asymmetric order. *)
Context {A K : Type} `{EqDecision K} (key : A -> K) (lt : K -> K -> bool).
Hypothesis lt_irrefl : forall k, lt k k = false.
Hypothesis lt_asym : forall j k, lt j k = true -> lt k j = false.

Let less (x y : A) : bool := lt (key x) (key y).
Let keyed (k : K) (x : A) : bool := bool_decide (key x = k).

Lemma insert_stable_perm (x : A) (l : list A) :
  Permutation (x :: l) (insert_stable less x l).
Proof.
  induction l as [|y l IH]; cbn [insert_stable]; [reflexivity|].
  destruct (less y x); [|reflexivity].
  rewrite perm_swap. now constructor.
Qed.

Lemma SliceStable_perm (l : list A) : Permutation l (SliceStable less l).
Proof.
  induction l as [|x l IH]; cbn; [constructor|].
  rewrite <- insert_stable_perm. now constructor.
Qed.

Lemma SliceStable_length (l : list A) : length (SliceStable less l) = length l.
Proof. symmetry. apply Permutation_length, SliceStable_perm. Qed.

Lemma insert_stable_sorted (x : A) (l : list A) :
  Sorted (fun a b => less b a = false) l ->
  Sorted (fun a b => less b a = false) (insert_stable less x l).
Proof.
  induction 1 as [|y l Hsorted IH Hhd]; cbn [insert_stable].
  - repeat constructor.
  - destruct (less y x) eqn:Hyx.
    + constructor; [assumption|].
      destruct Hhd as [|z l' Hz]; cbn [insert_stable].
      * constructor. now apply lt_asym.
      * destruct (less z x); constructor; [assumption | now apply lt_asym].
    + constructor; [now constructor | now constructor].
Qed.

Lemma SliceStable_sorted (l : list A) :
  Sorted (fun a b => less b a = false) (SliceStable less l).
Proof.
  induction l as [|x l IH]; cbn; [constructor|].
  now apply insert_stable_sorted.
Qed.

(** Elements with the same key keep their order. *)
Lemma insert_stable_keyed (k : K) (x : A) (l : list A) :
  List.filter (keyed k) (insert_stable less x l) = List.filter (keyed k) (x :: l).
Proof.
  induction l as [|y l IH]; cbn [insert_stable]; [reflexivity|].
  destruct (less y x) eqn:Hyx; [|reflexivity].
  cbn [List.filter] in *. rewrite IH.
  unfold keyed. do 2 case_bool_decide; try reflexivity.
  exfalso. unfold less in Hyx.
  replace (key y) with k in Hyx by congruence.
  replace (key x) with k in Hyx by congruence.
  rewrite lt_irrefl in Hyx. discriminate Hyx.
Qed.

Lemma SliceStable_stable (k : K) (l : list A) :
  List.filter (keyed k) (SliceStable less l) = List.filter (keyed k) l.
Proof.
  induction l as [|x l IH]; cbn [SliceStable foldr]; [reflexivity|].
  fold (SliceStable less l). rewrite insert_stable_keyed.
  cbn [List.filter]. now rewrite IH.
Qed.

(** A stable sort has one result: two sorted arrangements of the same
    elements that keep the order of equal keys are the same list. The
    order is then total on keys. *)
Hypothesis lt_trans : forall i j k, lt i j = true -> lt j k = true -> lt i k = true.
Hypothesis lt_total : forall j k, lt j k = false -> lt k j = false -> j = k.

Lemma le_trans (a b c : A) :
  less b a = false -> less c b = false -> less c a = false.
Proof.
  unfold less. intros Hba Hcb.
  destruct (lt (key c) (key a)) eqn:Hca; [|reflexivity].
  destruct (lt (key a) (key b)) eqn:Hab.
  - rewrite (lt_trans _ _ _ Hca Hab) in Hcb. discriminate Hcb.
  - rewrite <- (lt_total _ _ Hab Hba), Hca in Hcb. discriminate Hcb.
Qed.

Lemma Sorted_head_least (a : A) (l : list A) :
  Sorted (fun x y => less y x = false) (a :: l) ->
  forall x, In x (a :: l) -> less x a = false.
Proof.
  intros Hsorted x [<-|Hx]; [apply lt_irrefl|].
  apply Sorted_StronglySorted in Hsorted.
  - apply StronglySorted_inv in Hsorted as [_ Hall].
    rewrite List.Forall_forall in Hall. now apply Hall.
  - intros x1 x2 x3. apply le_trans.
Qed.

Lemma stable_sort_unique (s : list A) :
  forall s' : list A,
    Sorted (fun x y => less y x = false) s ->
    Sorted (fun x y => less y x = false) s' ->
    Permutation s s' ->
    (forall k, List.filter (keyed k) s = List.filter (keyed k) s') ->
    s = s'.
Proof.
  induction s as [|a t IH]; intros s' Hs Hs' Hperm Hkeys.
  - now apply Permutation_nil in Hperm.
  - destruct s' as [|b t'].
    + symmetry in Hperm. now apply Permutation_nil in Hperm.
    + assert (Hab : less b a = false).
      { apply (Sorted_head_least a t Hs).
        eapply Permutation_in; [symmetry; exact Hperm | now left]. }
      assert (Hba : less a b = false).
      { apply (Sorted_head_least b t' Hs').
        eapply Permutation_in; [exact Hperm | now left]. }
      pose proof (lt_total _ _ Hba Hab) as Hkey.
      assert (Heq : a = b).
      { pose proof (Hkeys (key a)) as Hk. cbn [List.filter] in Hk. unfold keyed in Hk.
        rewrite bool_decide_eq_true_2 in Hk by reflexivity.
        rewrite bool_decide_eq_true_2 in Hk by (symmetry; exact Hkey).
        congruence. }
      subst b. f_equal. apply IH.
      * now apply Sorted_inv in Hs.
      * now apply Sorted_inv in Hs'.
      * eapply Permutation_cons_inv. exact Hperm.
      * intros k. pose proof (Hkeys k) as Hk. cbn [List.filter] in Hk.
        destruct (keyed k a); congruence.
Qed.

End SortFacts.

(** ** Chain *)

Section ChainFacts.

Context {PubKey : Type} `{PubKeyOps PubKey}.

#[local] Abbreviation Block := (Block.t PubKey).
#[local] Abbreviation ChainT := (@Chain.ChainT PubKey).

Implicit Types (chain : ChainT) (block : Block) (pub : PubKey).

Lemma Uint64_small (x : Z) : 0 <= x < 2 ^ 64 -> BigInt.Uint64 x = x.
Proof.
  intros Hx. unfold BigInt.Uint64. rewrite Z.abs_eq by lia.
  apply Z.mod_small. lia.
Qed.

Lemma Uint64_range (x : Z) : 0 <= BigInt.Uint64 x < 2 ^ 64.
Proof. unfold BigInt.Uint64. apply Z.mod_pos_bound. lia. Qed.

Lemma Uint64_idem (x : Z) : BigInt.Uint64 (BigInt.Uint64 x) = BigInt.Uint64 x.
Proof. apply Uint64_small, Uint64_range. Qed.

(** [length == |blocks|], a non-empty chain: [LastHash] is the hash
    of the tail block. *)
Lemma LastHash_tail chain (pre : list Block) block :
  Chain.blocks chain = pre ++ [block] ->
  Chain.length chain = Z.of_nat (length (Chain.blocks chain)) ->
  Chain.length chain < 2 ^ 64 ->
  Chain.LastHash chain = Ret (Block.Hash block).
Proof.
  intros Hblocks Hlen Hsmall. unfold Chain.LastHash.
  rewrite Uint64_small by lia.
  rewrite Hlen, Hblocks, length_app in *. cbn [length] in *.
  rewrite Z.mod_small by lia.
  replace (Z.of_nat (length pre + 1) - 1) with (Z.of_nat (length pre)) by lia.
  erewrite index_lookup; [reflexivity|].
  now rewrite lookup_app_r, Nat.sub_diag by lia.
Qed.

(** *** IsValid *)

(** What the loop of [IsValid] computes: every block is compared
    with the hash of the tail block. *)
Lemma IsValid_range_tail chain (h : list byte) (rest : list Block) :
  Chain.LastHash chain = Ret h ->
  Chain.IsValid_range chain rest
  = Ret (forallb (fun b => Block.IsValid b && bytes_Equal (Block.LastHash b) h) rest).
Proof.
  intros Hlast. induction rest as [|b rest IH]; cbn [Chain.IsValid_range forallb].
  - reflexivity.
  - destruct (Block.IsValid b); cbn [negb andb]; [|reflexivity].
    rewrite Hlast. cbn.
    destruct (bytes_Equal (Block.LastHash b) h); cbn [negb]; [apply IH | reflexivity].
Qed.

Lemma IsValid_tail chain (h : list byte) :
  Chain.LastHash chain = Ret h ->
  Chain.IsValid chain
  = Ret (forallb (fun b => Block.IsValid b && bytes_Equal (Block.LastHash b) h)
           (Chain.blocks chain)).
Proof. apply IsValid_range_tail. Qed.

(** *** Append *)

Lemma Append_invalid chain block :
  Block.IsValid block = false ->
  Chain.Append chain (Chain.ObjBlock block)
  = Ret (Some "block is invalid"%string, chain).
Proof. intros Hv. unfold Chain.Append. cbn. now rewrite Hv. Qed.

Lemma Append_relation chain block (h : list byte) :
  Block.IsValid block = true ->
  Chain.LastHash chain = Ret h ->
  Block.LastHash block <> h ->
  Chain.Append chain (Chain.ObjBlock block)
  = Ret (Some "relation is invalid"%string, chain).
Proof.
  intros Hv Hlast Hne. unfold Chain.Append. cbn. rewrite Hv, Hlast. cbn.
  unfold bytes_Equal. now rewrite bool_decide_eq_false_2.
Qed.

Lemma Append_ok chain block :
  Block.IsValid block = true ->
  Chain.LastHash chain = Ret (Block.LastHash block) ->
  Chain.Append chain (Chain.ObjBlock block)
  = Ret (None, {| Chain.blocks := Chain.blocks chain ++ [block];
                  Chain.length := Chain.length chain + 1 |}).
Proof.
  intros Hv Hlast. unfold Chain.Append. cbn. rewrite Hv, Hlast. cbn.
  unfold bytes_Equal. now rewrite bool_decide_eq_true_2.
Qed.

(** The branch that returns "block is null" is never taken. *)
Lemma Append_never_null chain (obj : Chain.Object) (chain' : ChainT) :
  Chain.Append chain obj <> Ret (Some "block is null"%string, chain').
Proof.
  unfold Chain.Append. destruct obj as [|b|tx]; cbn; try discriminate.
  destruct (Block.IsValid b); cbn; [|discriminate].
  destruct (Chain.LastHash chain); cbn; try discriminate.
  destruct (bytes_Equal _ _); cbn; discriminate.
Qed.

(** *** Range *)

Lemma Range_narrowed chain (x y : Z) :
  Chain.Range chain x y
  = Chain.Range chain (BigInt.Uint64 x) (BigInt.Uint64 y).
Proof. unfold Chain.Range. now rewrite !Uint64_idem. Qed.

Lemma slice_within {A : Type} (s : list A) (lo hi : Z) :
  lo <= hi <= Z.of_nat (length s) ->
  slice s lo hi = Within (take (Z.to_nat (hi - lo)) (drop (Z.to_nat lo) s)).
Proof.
  intros Hb. unfold slice.
  destruct (Z.ltb_spec hi lo); [lia|].
  destruct (Z.ltb_spec (Z.of_nat (length s)) hi); [lia | reflexivity].
Qed.

(** *** Find and LazyInterval *)

Lemma Find_hash chain block :
  NoDup (Block.Hash <$> Chain.blocks chain) ->
  block ∈ Chain.blocks chain ->
  Chain.Find chain (Block.Hash block) = Some block.
Proof.
  unfold Chain.Find. induction (Chain.blocks chain) as [|b bs IH]; intros Hnd Hin.
  - now apply elem_of_nil in Hin.
  - cbn [List.find]. rewrite fmap_cons in Hnd. apply NoDup_cons in Hnd as [Hnotin Hnd].
    unfold bytes_Equal at 1. case_bool_decide as Heq.
    + apply elem_of_cons in Hin as [->|Hin]; [reflexivity|].
      exfalso. apply Hnotin. rewrite <- Heq. now apply list_elem_of_fmap_2.
    + apply elem_of_cons in Hin as [->|Hin]; [congruence | now apply IH].
Qed.

Lemma Find_absent chain (hash : list byte) :
  hash ∉ Block.Hash <$> Chain.blocks chain ->
  Chain.Find chain hash = None.
Proof.
  unfold Chain.Find. induction (Chain.blocks chain) as [|b bs IH]; intros Hnotin.
  - reflexivity.
  - cbn [List.find]. rewrite fmap_cons in Hnotin.
    apply not_elem_of_cons in Hnotin as [Hne Hnotin].
    unfold bytes_Equal at 1. rewrite bool_decide_eq_false_2 by assumption.
    now apply IH.
Qed.

Lemma linked_head (prev : list byte) block (suf : list Block) :
  Spec.linked prev (block :: suf) = true -> Block.LastHash block = prev.
Proof.
  cbn [Spec.linked]. intros [Heq _]%andb_prop.
  now apply bool_decide_eq_true_1 in Heq.
Qed.

Lemma linked_mid (prev : list byte) (pre : list Block) (a b : Block) (suf : list Block) :
  Spec.linked prev (pre ++ a :: b :: suf) = true ->
  Block.LastHash b = Block.Hash a.
Proof.
  revert prev. induction pre as [|c pre IH]; intros prev; cbn [app Spec.linked].
  - intros [_ Hrest]%andb_prop. now apply linked_head in Hrest.
  - intros [_ Hrest]%andb_prop. now apply IH in Hrest.
Qed.

(** On a chain that satisfies the invariant of the data model the
    loop stops at the genesis block: its [LastHash] is ChainID, not
    the hash of the tail block. *)
Lemma IsValid_rejects_well_formed (ChainID : list byte) chain :
  Spec.well_formed ChainID chain -> Chain.IsValid chain = Ret false.
Proof.
  intros Hwf.
  destruct (exists_last (Spec.wf_genesis _ _ Hwf)) as (pre & tail & Hblocks).
  rewrite (IsValid_tail chain (Block.Hash tail)).
  - pose proof (Spec.wf_linked _ _ Hwf) as Hlink.
    pose proof (Spec.wf_ChainID _ _ Hwf) as HID.
    destruct (Chain.blocks chain) as [|g rest] eqn:Hg; [now destruct pre|].
    apply linked_head in Hlink. cbn [forallb]. rewrite Hlink.
    unfold bytes_Equal at 1. rewrite bool_decide_eq_false_2.
    + now rewrite andb_false_r.
    + intros Heq. apply HID. rewrite Heq, Hblocks.
      apply list_elem_of_fmap_2, elem_of_app. right. apply elem_of_cons. now left.
  - apply (LastHash_tail chain pre tail Hblocks);
      [apply (Spec.wf_length _ _ Hwf) | apply (Spec.wf_small _ _ Hwf)].
Qed.

(** One pass of the loop body on a block in which [pub] appears. *)
Lemma loop_appears (fuel : nat) chain pub block (diff : Z) :
  Spec.appears pub block = true ->
  Block.Range block 0 (Block.Length block) <> None ->
  Chain.LazyInterval_loop (S fuel) chain pub block diff = Ret diff.
Proof.
  unfold Spec.appears. intros Happ Hrange. cbn [Chain.LazyInterval_loop].
  destruct (Equal pub (Block.Validator block)); [reflexivity|].
  destruct (Block.Range block 0 (Block.Length block)) as [txs|]; [|congruence].
  cbn in Happ. now rewrite Happ.
Qed.

(** One pass of the loop body on a block in which it does not. *)
Lemma loop_walks (fuel : nat) chain pub block (diff : Z) :
  Spec.appears pub block = false ->
  Block.Range block 0 (Block.Length block) <> None ->
  Chain.LazyInterval_loop (S fuel) chain pub block diff
  = match Chain.Find chain (Block.LastHash block) with
    | None => Ret (-1)
    | Some block' => Chain.LazyInterval_loop fuel chain pub block' (diff + 1)
    end.
Proof.
  unfold Spec.appears. intros Happ Hrange. cbn [Chain.LazyInterval_loop].
  apply orb_false_elim in Happ as [-> Htxs].
  destruct (Block.Range block 0 (Block.Length block)) as [txs|]; [|congruence].
  cbn in Htxs. now rewrite Htxs.
Qed.

(** The loop, started at the block that follows [pre], walks back
    through [pre] to the genesis block. *)
Lemma loop_walk_back (ChainID : list byte) chain pub :
  Spec.well_formed ChainID chain ->
  forall (pre : list Block) block (suf : list Block) (fuel : nat) (diff : Z),
    Chain.blocks chain = pre ++ block :: suf ->
    (length pre < fuel)%nat ->
    Chain.LazyInterval_loop fuel chain pub block diff
    = Ret (match Spec.walk_back pub (block :: rev pre) with
           | Some k => diff + k
           | None => -1
           end).
Proof.
  intros Hwf pre. induction pre as [|a pre IH] using rev_ind;
    intros block suf fuel diff Hblocks Hfuel.
  - destruct fuel as [|fuel]; [cbn in Hfuel; lia|].
    pose proof (Spec.wf_linked _ _ Hwf) as Hlink. pose proof (Spec.wf_ranges _ _ Hwf) as Hr.
    rewrite Hblocks in Hlink, Hr. cbn [app] in Hlink, Hr.
    apply linked_head in Hlink. apply Forall_cons in Hr as [Hr _].
    cbn [rev Spec.walk_back].
    destruct (Spec.appears pub block) eqn:Happ.
    + rewrite loop_appears by assumption. f_equal. lia.
    + rewrite loop_walks by assumption.
      rewrite Hlink, Find_absent by apply (Spec.wf_ChainID _ _ Hwf). reflexivity.
  - destruct fuel as [|fuel]; [cbn in Hfuel; lia|].
    rewrite length_app in Hfuel. cbn [length] in Hfuel.
    rewrite <- app_assoc in Hblocks. cbn [app] in Hblocks.
    pose proof (Spec.wf_linked _ _ Hwf) as Hlink. pose proof (Spec.wf_ranges _ _ Hwf) as Hr.
    rewrite Hblocks in Hlink, Hr.
    apply linked_mid in Hlink.
    apply Forall_app in Hr as [_ Hr]. apply Forall_cons in Hr as [_ Hr].
    apply Forall_cons in Hr as [Hr _].
    rewrite rev_unit. cbn [Spec.walk_back].
    destruct (Spec.appears pub block) eqn:Happ.
    + rewrite loop_appears by assumption. f_equal. lia.
    + rewrite loop_walks by assumption.
      rewrite Hlink, Find_hash.
      * rewrite (IH a (block :: suf) fuel (diff + 1) Hblocks) by lia.
        cbn [Spec.walk_back].
        destruct (Spec.appears pub a); cbn; [f_equal; lia|].
        destruct (Spec.walk_back pub (rev pre)); cbn; [f_equal; lia | reflexivity].
      * apply (Spec.wf_hashes _ _ Hwf).
      * rewrite Hblocks. apply elem_of_app. right. apply elem_of_cons. now left.
Qed.

(** A block whose [Range] is nil ends the walk with -1. *)
Lemma loop_nil_Range (fuel : nat) chain pub block (diff : Z) :
  Equal pub (Block.Validator block) = false ->
  Block.Range block 0 (Block.Length block) = None ->
  Chain.LazyInterval_loop (S fuel) chain pub block diff = Ret (-1).
Proof. intros Hv Hr. cbn [Chain.LazyInterval_loop]. now rewrite Hv, Hr. Qed.

Lemma loop_more_fuel (fuel extra : nat) chain pub :
  forall block (diff v : Z),
    Chain.LazyInterval_loop fuel chain pub block diff = Ret v ->
    Chain.LazyInterval_loop (fuel + extra) chain pub block diff = Ret v.
Proof.
  induction fuel as [|fuel IH]; intros block diff v; [discriminate|].
  cbn [Chain.LazyInterval_loop Nat.add].
  destruct (Equal pub (Block.Validator block)); [trivial|].
  destruct (Block.Range block 0 (Block.Length block)) as [txs|]; [|trivial].
  destruct (existsb _ txs); [trivial|].
  destruct (Chain.Find chain (Block.LastHash block)); [apply IH | trivial].
Qed.

Lemma LazyInterval_LastHash (fuel : nat) chain pub (v : Z) :
  Chain.LazyInterval fuel chain pub = Ret v ->
  exists h, Chain.LastHash chain = Ret h.
Proof.
  unfold Chain.LazyInterval.
  destruct (Chain.LastHash chain) as [h| |]; cbn; [eauto | discriminate..].
Qed.

(** *** SelectLazy *)

Lemma Cmp_gt (x y : Z) : (BigInt.Cmp x y >? 0) = (x >? y).
Proof.
  unfold BigInt.Cmp.
  destruct (Z.compare_spec x y); destruct (Z.gtb_spec x y);
    cbn; try reflexivity; lia.
Qed.

Lemma Cmp_eq (x y : Z) : (BigInt.Cmp x y =? 0) = (x =? y).
Proof.
  unfold BigInt.Cmp.
  destruct (Z.compare_spec x y); destruct (Z.eqb_spec x y);
    cbn; try reflexivity; lia.
Qed.

Lemma greatest_floor (level : PubKey -> Z) (floor : Z) (vs : list PubKey) :
  floor <= Spec.greatest level floor vs.
Proof.
  revert floor. induction vs as [|p vs IH]; intros floor; cbn; [lia|].
  etransitivity; [|apply IH]. lia.
Qed.

Lemma greatest_upper (level : PubKey -> Z) (floor : Z) (vs : list PubKey) (q : PubKey) :
  q ∈ vs -> level q <= Spec.greatest level floor vs.
Proof.
  revert floor. induction vs as [|p vs IH]; intros floor Hin.
  - now apply elem_of_nil in Hin.
  - cbn. apply elem_of_cons in Hin as [->|Hin]; [|now apply IH].
    etransitivity; [|apply greatest_floor]. lia.
Qed.

Lemma greatest_attained (level : PubKey -> Z) (floor : Z) (vs : list PubKey) :
  Spec.greatest level floor vs = floor
  \/ exists q, q ∈ vs /\ level q = Spec.greatest level floor vs.
Proof.
  revert floor. induction vs as [|p vs IH]; intros floor; cbn; [now left|].
  destruct (IH (Z.max floor (level p))) as [Heq|(q & Hin & Heq)].
  - fold (Spec.greatest level (Z.max floor (level p)) vs). rewrite Heq.
    destruct (Z.max_spec floor (level p)) as [[_ ->]|[_ ->]].
    + right. exists p. split; [apply elem_of_cons; now left | reflexivity].
    + now left.
  - right. exists q. split; [apply elem_of_cons; now right | exact Heq].
Qed.

(** The loop keeps, next to the greatest level met so far, the
    candidates of that level. *)
Lemma SelectLazy_range_levels (fuel : nat) chain (level : PubKey -> Z) :
  forall (vs finds : list PubKey) (diff : Z),
    (forall q, q ∈ vs -> Chain.LazyInterval fuel chain q = Ret (level q)) ->
    Chain.SelectLazy_range fuel chain vs finds diff
    = Ret ((if bool_decide (Spec.greatest level diff vs = diff) then finds else [])
           ++ Spec.tied level (Spec.greatest level diff vs) vs).
Proof.
  induction vs as [|p vs IH]; intros finds diff Hlevels.
  - cbn. rewrite bool_decide_eq_true_2 by reflexivity. now rewrite app_nil_r.
  - cbn [Chain.SelectLazy_range]. rewrite Hlevels by (apply elem_of_cons; now left).
    cbn. rewrite Cmp_gt, Cmp_eq.
    assert (Hrest : forall q, q ∈ vs -> Chain.LazyInterval fuel chain q = Ret (level q))
      by (intros q Hq; apply Hlevels, elem_of_cons; now right).
    unfold Spec.tied. cbn [List.filter foldl Spec.greatest].
    fold (Spec.greatest level (Z.max diff (level p)) vs).
    pose proof (greatest_floor level (Z.max diff (level p)) vs) as Hfloor.
    destruct (Z.gtb_spec (level p) diff) as [Hgt|Hle].
    + rewrite IH by assumption. rewrite Z.max_r in * by lia.
      rewrite (bool_decide_eq_false_2 (_ = diff)) by lia.
      case_bool_decide as HG.
      * rewrite HG, Z.eqb_refl. reflexivity.
      * destruct (Z.eqb_spec (level p) (Spec.greatest level (level p) vs)); [congruence|].
        reflexivity.
    + destruct (Z.eqb_spec (level p) diff) as [Heq|Hne].
      * rewrite IH by assumption. rewrite Z.max_l in * by lia.
        case_bool_decide as HG.
        -- rewrite HG, Heq, Z.eqb_refl. now rewrite <- app_assoc.
        -- destruct (Z.eqb_spec (level p) (Spec.greatest level diff vs)); [congruence|].
           reflexivity.
      * rewrite IH by assumption. rewrite Z.max_l in * by lia.
        destruct (Z.eqb_spec (level p) (Spec.greatest level diff vs)); [lia|].
        reflexivity.
Qed.

Lemma ltb_irrefl (k : string) : String.ltb k k = false.
Proof.
  unfold String.ltb. pose proof (String.compare_antisym k k) as Hanti.
  destruct (String.compare k k); [reflexivity | discriminate Hanti | reflexivity].
Qed.

Lemma ltb_asym (j k : string) : String.ltb j k = true -> String.ltb k j = false.
Proof.
  unfold String.ltb. rewrite (String.compare_antisym j k).
  now destruct (String.compare k j).
Qed.

Lemma ltb_leb (j k : string) : String.ltb k j = false -> String.leb j k = true.
Proof.
  unfold String.ltb, String.leb. rewrite (String.compare_antisym j k).
  now destruct (String.compare k j).
Qed.

Lemma Sorted_weaken {A : Type} (R1 R2 : A -> A -> Prop) (l : list A) :
  (forall a b, R1 a b -> R2 a b) -> Sorted R1 l -> Sorted R2 l.
Proof.
  intros Himpl. induction 1 as [|a l _ IH Hhd]; constructor; [assumption|].
  destruct Hhd; constructor. now apply Himpl.
Qed.

(** The model of [sort.SliceStable] under [less] sorts by address,
    ascending and stable. *)
Lemma SliceStable_by_Address (candidates : list PubKey) :
  Spec.sorted_by_Address candidates (SliceStable Chain.less candidates).
Proof.
  change Chain.less with (fun p q : PubKey => String.ltb (Address p) (Address q)).
  split; [|split].
  - apply SliceStable_perm.
  - eapply Sorted_weaken; [|apply (SliceStable_sorted Address String.ltb ltb_asym)].
    intros a b. apply ltb_leb.
  - intros a. apply (SliceStable_stable Address String.ltb ltb_irrefl).
Qed.

Lemma ltb_trans (i j k : string) :
  String.ltb i j = true -> String.ltb j k = true -> String.ltb i k = true.
Proof.
  unfold String.ltb. intros Hij Hjk.
  destruct (String.compare i j) eqn:Cij; try discriminate Hij.
  destruct (String.compare j k) eqn:Cjk; try discriminate Hjk.
  apply OrderedTypeEx.String_as_OT.cmp_lt in Cij, Cjk.
  pose proof (OrderedTypeEx.String_as_OT.lt_trans _ _ _ Cij Cjk) as Cik.
  apply OrderedTypeEx.String_as_OT.cmp_lt in Cik.
  unfold OrderedTypeEx.String_as_OT.cmp in Cik. now rewrite Cik.
Qed.

Lemma ltb_total (j k : string) :
  String.ltb j k = false -> String.ltb k j = false -> j = k.
Proof.
  unfold String.ltb. rewrite (String.compare_antisym j k). intros Hjk Hkj.
  apply String.compare_eq_iff. rewrite (String.compare_antisym j k).
  now destruct (String.compare k j).
Qed.

Lemma leb_ltb (j k : string) : String.leb j k = true -> String.ltb k j = false.
Proof.
  unfold String.ltb, String.leb. rewrite (String.compare_antisym j k).
  now destruct (String.compare k j).
Qed.

(** The contract of a stable sort by address has one solution, the
    one the model computes. *)
Lemma sorted_by_Address_unique (candidates sorted : list PubKey) :
  Spec.sorted_by_Address candidates sorted ->
  sorted = SliceStable Chain.less candidates.
Proof.
  intros (Hperm & Hsorted & Hstable).
  destruct (SliceStable_by_Address candidates) as (Hperm' & _ & Hstable').
  change Chain.less with (fun p q : PubKey => String.ltb (Address p) (Address q)) in *.
  apply (stable_sort_unique Address String.ltb ltb_irrefl ltb_trans ltb_total).
  - eapply Sorted_weaken; [|exact Hsorted]. intros a b. apply leb_ltb.
  - apply (SliceStable_sorted Address String.ltb ltb_asym).
  - now rewrite <- Hperm.
  - intros k. now rewrite Hstable, Hstable'.
Qed.

Lemma index_insert_head (finds : list PubKey) pub :
  finds <> [] -> index (<[0%nat := pub]> finds) 0 = Ret pub.
Proof. destruct finds as [|p finds]; [congruence | reflexivity]. Qed.

(** With the levels of the candidates known and some candidate of
    the greatest level, [SelectLazy] returns the element of the
    sorted candidates of that level at the index the last hash gives. *)
Lemma SelectLazy_tied (fuel : nat) chain (level : PubKey -> Z)
    (vs : list PubKey) (h : list byte) :
  (forall q, q ∈ vs -> Chain.LazyInterval fuel chain q = Ret (level q)) ->
  Chain.LastHash chain = Ret h ->
  Spec.tied level (Spec.greatest level 0 vs) vs <> [] ->
  exists pub,
    Chain.SelectLazy fuel chain vs = Ret pub
    /\ SliceStable Chain.less (Spec.tied level (Spec.greatest level 0 vs) vs)
       !! Z.to_nat (BigInt.Uint64 (BigInt.LoadInt h)
                    mod Z.of_nat (length (Spec.tied level (Spec.greatest level 0 vs) vs)))
       = Some pub.
Proof.
  intros Hlevels Hlast Hne. unfold Chain.SelectLazy.
  rewrite (SelectLazy_range_levels fuel chain level) by assumption.
  replace (if bool_decide (Spec.greatest level 0 vs = 0) then [] else [])
    with (@nil PubKey) by now case_bool_decide.
  cbn [app]. set (finds := Spec.tied level (Spec.greatest level 0 vs) vs) in *.
  set (r := BigInt.Uint64 (BigInt.LoadInt h)).
  assert (Hr : 0 <= r) by apply Uint64_range.
  cbn. destruct (Z.gtb_spec (Z.of_nat (length finds)) 1) as [Hmany|Hone].
  - rewrite Hlast. cbn. fold r.
    pose proof (proj1 (SliceStable_by_Address finds)) as Hperm.
    pose proof (Permutation_length Hperm) as Hlen.
    assert (Hidx : 0 <= r mod Z.of_nat (length finds) < Z.of_nat (length finds))
      by (apply Z.mod_pos_bound; lia).
    destruct (lookup_lt_is_Some_2 (SliceStable Chain.less finds)
                (Z.to_nat (r mod Z.of_nat (length finds)))) as [pub Hpub]; [lia|].
    exists pub. split; [|exact Hpub].
    rewrite <- (Z2Nat.id (r mod Z.of_nat (length finds))) at 1 by lia.
    rewrite (index_lookup _ _ _ Hpub). cbn.
    apply index_insert_head. intros Hnil. rewrite Hnil in Hlen. cbn in Hlen. lia.
  - destruct finds as [|p [|p' finds']]; [congruence| |cbn [length] in Hone; lia].
    exists p. split; [reflexivity|].
    cbn [length]. now rewrite Z.mod_1_r.
Qed.

Lemma tied_none (level : PubKey -> Z) (vs : list PubKey) :
  (forall q, q ∈ vs -> level q < 0) ->
  Spec.tied level (Spec.greatest level 0 vs) vs = [].
Proof.
  intros Hneg.
  assert (HG : Spec.greatest level 0 vs = 0).
  { destruct (greatest_attained level 0 vs) as [Heq|(q & Hin & Heq)]; [exact Heq|].
    pose proof (Hneg q Hin). pose proof (greatest_floor level 0 vs). lia. }
  rewrite HG. unfold Spec.tied. induction vs as [|p vs IH]; [reflexivity|].
  cbn [List.filter].
  pose proof (Hneg p ltac:(apply elem_of_cons; now left)) as Hp.
  destruct (Z.eqb_spec (level p) 0); [lia|].
  apply IH.
  - intros q Hq. apply Hneg, elem_of_cons. now right.
  - destruct (greatest_attained level 0 vs) as [Heq|(q & Hin & Heq)]; [exact Heq|].
    pose proof (Hneg q ltac:(apply elem_of_cons; now right)).
    pose proof (greatest_floor level 0 vs). lia.
Qed.

Lemma tied_some (level : PubKey -> Z) (vs : list PubKey) (q : PubKey) :
  q ∈ vs -> 0 <= level q ->
  exists p, p ∈ Spec.tied level (Spec.greatest level 0 vs) vs.
Proof.
  intros Hin Hq.
  assert (Hatt : exists p, p ∈ vs /\ level p = Spec.greatest level 0 vs).
  { destruct (greatest_attained level 0 vs) as [Heq|Hatt]; [|exact Hatt].
    exists q. split; [assumption|].
    pose proof (greatest_upper level 0 vs q Hin). lia. }
  destruct Hatt as (p & Hp & Heq). exists p.
  unfold Spec.tied. apply list_elem_of_In, filter_In.
  split; [now apply list_elem_of_In | now apply Z.eqb_eq].
Qed.

End ChainFacts.

(** ** Node *)

Section NodeFacts.

Import Node.

Variables (ConnSize MappSize RetrySize : Z) (IsNode IsClient : byte).

#[local] Abbreviation step := (Node.step ConnSize MappSize RetrySize IsNode IsClient).
#[local] Abbreviation run := (Node.run ConnSize MappSize RetrySize IsNode IsClient).
#[local] Abbreviation setMapping := (Node.setMapping MappSize).
#[local] Abbreviation first_key := (Node.first_key MappSize).

Implicit Types (w : World) (n : NodeT) (l : label) (m : Message).

(** Splits a hypothesis [step l w = Some w'] into the branches of the
    step that was taken. *)
Ltac step_cases :=
  repeat first
    [ progress simplify_option_eq
    | match goal with
      | H : context [match ?x with _ => _ end] |- _ => destruct x eqn:?
      end ].

(** *** The seen-set *)

Lemma setMapping_in (first : string) n (hash : string) :
  inMapping (setMapping first n hash) hash = true.
Proof.
  unfold inMapping, Node.setMapping. cbn.
  apply bool_decide_eq_true_2. rewrite lookup_insert_eq. eauto.
Qed.

Lemma setMapping_size (first : string) n (hash : string) :
  first_key first n = true ->
  Z.of_nat (size (mapping n)) <= MappSize + 1 ->
  Z.of_nat (size (mapping (setMapping first n hash))) <= MappSize + 1.
Proof.
  unfold Node.first_key, Node.setMapping. cbn. intros Hfirst Hsize.
  destruct (Z.gtb_spec (Z.of_nat (size (mapping n))) MappSize) as [Hfull|Hroom].
  - apply bool_decide_eq_true_1 in Hfirst.
    pose proof (map_size_delete_Some first (mapping n) Hfirst) as Hdel.
    pose proof (map_size_ne_0_lookup_2 (mapping n) first Hfirst) as Hpos.
    rewrite map_size_insert. destruct (delete first (mapping n) !! hash); cbn; lia.
  - rewrite map_size_insert. destruct (mapping n !! hash); cbn; lia.
Qed.

(** An insert into a set of [MappSize] hashes evicts nothing. *)
Lemma setMapping_grows (first : string) n (hash : string) :
  Z.of_nat (size (mapping n)) = MappSize ->
  mapping n !! hash = None ->
  Z.of_nat (size (mapping (setMapping first n hash))) = MappSize + 1.
Proof.
  unfold Node.setMapping. cbn. intros Hsize Hfresh.
  destruct (Z.gtb_spec (Z.of_nat (size (mapping n))) MappSize) as [Hfull|Hroom]; [lia|].
  rewrite map_size_insert_None by assumption. lia.
Qed.

(** Only [setMapping] writes the seen-set. *)
Lemma step_mapping l w w' :
  step l w = Some w' ->
  mapping (node w') = mapping (node w)
  \/ exists first hash,
       first_key first (node w) = true
       /\ node w' = setMapping first (node w) hash.
Proof.
  destruct l; cbn; intros Hstep; step_cases; cbn; eauto.
Qed.

Lemma step_mapping_size l w w' :
  step l w = Some w' ->
  Z.of_nat (size (mapping (node w))) <= MappSize + 1 ->
  Z.of_nat (size (mapping (node w'))) <= MappSize + 1.
Proof.
  intros Hstep Hsize.
  destruct (step_mapping _ _ _ Hstep) as [->|(first & hash & Hfirst & ->)];
    [assumption | now apply setMapping_size].
Qed.

(** The seen-set of a node made by [NewNode] holds at most
    [MappSize + 1] hashes, whatever the schedule. *)
Lemma run_mapping_size (ls : list label) :
  0 <= MappSize ->
  forall w w',
    Z.of_nat (size (mapping (node w))) <= MappSize + 1 ->
    run ls w = Some w' ->
    Z.of_nat (size (mapping (node w'))) <= MappSize + 1.
Proof.
  intros HM. induction ls as [|l ls IH]; intros w w' Hsize Hrun; cbn in Hrun.
  - now simplify_eq.
  - destruct (step l w) as [w1|] eqn:Hstep; [|discriminate]. cbn in Hrun.
    eapply IH; [|exact Hrun]. eapply step_mapping_size; eassumption.
Qed.

(** *** Readers that hold no copy *)

Lemma none_holds_with_reader (hash : string) w (conn : Conn) (r : reader) :
  holds hash r = false -> none_holds hash w ->
  none_holds hash (Node.with_reader w conn r).
Proof.
  intros Hr Hnone conn' r'. cbn. rewrite lookup_insert.
  case_decide; [intros [= <-]; exact Hr | apply Hnone].
Qed.

Lemma none_holds_delete (hash : string) w (w' : World) (conn : Conn) :
  readers w' = delete conn (readers w) -> none_holds hash w -> none_holds hash w'.
Proof.
  intros Heq Hnone conn' r. rewrite Heq, lookup_delete.
  case_decide; [discriminate | apply Hnone].
Qed.

Lemma none_holds_same_readers (hash : string) w (w' : World) :
  readers w' = readers w -> none_holds hash w -> none_holds hash w'.
Proof. intros Heq Hnone conn r. rewrite Heq. apply Hnone. Qed.

Lemma unseen_other (hash : string) n (msg : Message) :
  inMapping n hash = true -> inMapping n (Hash msg) = false ->
  String.eqb (Hash msg) hash = false.
Proof.
  intros Hseen Hnew. apply String.eqb_neq. intros Heq. congruence.
Qed.

(** While the hash is in the seen-set and no reader holds a copy, a
    step gives no reader a copy and invokes no handler for one. *)
Lemma step_seen (hash : string) l w w' :
  step l w = Some w' ->
  inMapping (node w) hash = true ->
  none_holds hash w ->
  none_holds hash w' /\ handled hash (calls w') = handled hash (calls w).
Proof.
  intros Hstep Hseen Hnone.
  destruct l; cbn in Hstep.
  - destruct (Node.hasMaxConnSize ConnSize (node w)); injection Hstep as <-;
      (split; [eapply none_holds_same_readers; [|eassumption] | ]; reflexivity).
  - case_bool_decide; [|discriminate Hstep].
    repeat case_bool_decide; injection Hstep as <-; (split; [|reflexivity]);
      try (apply none_holds_with_reader; [reflexivity|]);
      (eapply none_holds_same_readers; [|eassumption]); reflexivity.
  - destruct (Node.hasMaxConnSize ConnSize (node w)); injection Hstep as <-;
      (split; [eapply none_holds_same_readers; [|eassumption] | ]; reflexivity).
  - case_bool_decide; [|discriminate Hstep]. injection Hstep as <-.
    split; [|reflexivity]. apply none_holds_with_reader; [reflexivity|].
    eapply none_holds_same_readers; [|eassumption]. reflexivity.
  - injection Hstep as <-.
    split; [eapply none_holds_same_readers; [|eassumption] | ]; reflexivity.
  - injection Hstep as <-.
    split; [eapply none_holds_same_readers; [|eassumption] | ]; reflexivity.
  - destruct (first_key first (node w)); [|discriminate Hstep]. injection Hstep as <-.
    split; [eapply none_holds_same_readers; [|eassumption] | ]; reflexivity.
  - destruct (Node.reading RetrySize w conn) as [r|]; [|discriminate Hstep].
    injection Hstep as <-. split; [|reflexivity].
    apply none_holds_with_reader; [reflexivity | assumption].
  - destruct (Node.reading RetrySize w conn) as [r|]; [|discriminate Hstep].
    cbn in Hstep. destruct (inMapping (node w) (Hash msg)) eqn:Hmsg;
      injection Hstep as <-; [now split|].
    split; [|reflexivity]. apply none_holds_with_reader; [|assumption].
    cbn. eapply unseen_other; eassumption.
  - destruct (readers w !! conn) as [r|] eqn:Hr; [|discriminate Hstep]. cbn in Hstep.
    destruct (at_point r) as [|msg|msg] eqn:Hat; try discriminate Hstep.
    destruct (first_key first (node w)); [|discriminate Hstep]. injection Hstep as <-.
    split; [|reflexivity]. apply none_holds_with_reader.
    + specialize (Hnone conn r Hr). unfold holds in Hnone. rewrite Hat in Hnone.
      exact Hnone.
    + eapply none_holds_same_readers; [|eassumption]. reflexivity.
  - destruct (readers w !! conn) as [r|] eqn:Hr; [|discriminate Hstep]. cbn in Hstep.
    destruct (at_point r) as [|msg|msg] eqn:Hat; try discriminate Hstep.
    specialize (Hnone conn r Hr) as Hmsg. unfold holds in Hmsg. rewrite Hat in Hmsg.
    destruct (Node.getFunction (node w) (Head msg)); injection Hstep as <-.
    + split.
      * intros conn' r'. cbn. rewrite lookup_insert.
        case_decide; [intros [= <-]; reflexivity | apply Hnone].
      * unfold handled. cbn. rewrite Hmsg. reflexivity.
    + split; [|reflexivity]. apply none_holds_with_reader; [reflexivity | assumption].
  - destruct (readers w !! conn) as [r|]; [|discriminate Hstep]. cbn in Hstep.
    destruct (at_point r); try discriminate Hstep.
    destruct (counter r =? RetrySize); [|discriminate Hstep]. injection Hstep as <-.
    split; [|reflexivity]. eapply none_holds_delete; [|eassumption]. reflexivity.
Qed.

Lemma run_seen (hash : string) (ls : list label) :
  forall w w',
    run ls w = Some w' ->
    Node.stays_seen ConnSize MappSize RetrySize IsNode IsClient hash ls w = true ->
    inMapping (node w) hash = true ->
    none_holds hash w ->
    inMapping (node w') hash = true
    /\ none_holds hash w'
    /\ handled hash (calls w') = handled hash (calls w).
Proof.
  induction ls as [|l ls IH]; intros w w' Hrun Hstays Hseen Hnone; cbn in Hrun.
  - now simplify_eq.
  - cbn [Node.stays_seen] in Hstays.
    destruct (step l w) as [w1|] eqn:Hstep; [|discriminate]. cbn in Hrun.
    apply andb_true_iff in Hstays as [Hseen1 Hstays].
    destruct (step_seen hash l w w1 Hstep Hseen Hnone) as (Hnone1 & Hcalls1).
    destruct (IH w1 w' Hrun Hstays Hseen1 Hnone1) as (Hseen' & Hnone' & Hcalls').
    split_and!; [assumption.. | congruence].
Qed.

(** *** The connection set *)

Lemma accept_at_ConnSize w (conn : Conn) :
  Z.of_nat (size (connections (node w))) = ConnSize ->
  connections (node w) !! conn = None ->
  exists w1 w2,
    step (AcceptCheck conn) w = Some w1
    /\ step (AcceptRole conn IsNode) w1 = Some w2
    /\ connections (node w2) = <[conn := true]> (connections (node w))
    /\ closed w2 = closed w
    /\ Z.of_nat (size (connections (node w2))) = ConnSize + 1.
Proof.
  intros Hsize Hfresh. cbn. unfold Node.hasMaxConnSize.
  destruct (Z.gtb_spec (Z.of_nat (size (connections (node w)))) ConnSize); [lia|].
  eexists _, _. split; [reflexivity|]. cbn.
  rewrite bool_decide_eq_true_2 by set_solver.
  rewrite bool_decide_eq_true_2 by reflexivity.
  split; [reflexivity|]. cbn. split; [reflexivity|]. split; [reflexivity|].
  rewrite map_size_insert_None by assumption. lia.
Qed.

End NodeFacts.

(** * The statements of the spec, C1 to C10 *)

(** C1. [Chain.IsValid] does not decide "every block valid and the
    back-links consistent": it compares the [LastHash] of every block
    with the hash of the tail block. The chain [NewChain] returns and a
    chain of three linked blocks are rejected, and a single block that
    links to itself is accepted. *)
Theorem IsValid_compares_with_tail :
  Spec.IsValid Sample.ChainID Sample.chain1 = true
  /\ Chain.IsValid Sample.chain1 = Ret false
  /\ Spec.IsValid Sample.ChainID Sample.chain3 = true
  /\ Chain.IsValid Sample.chain3 = Ret false
  /\ Spec.IsValid Sample.ChainID Sample.loop_chain = false
  /\ Chain.IsValid Sample.loop_chain = Ret true.
Proof. repeat split; vm_compute; reflexivity. Qed.

(** C2. On a well-formed chain [LazyInterval], given fuel for one pass
    per block, returns the number of blocks to walk back from the tail
    to the first block in which [pub] appears as the validator of the
    block or of one of its transactions, and -1 when the walk passes
    the genesis block without meeting [pub]. *)
Theorem LazyInterval_walks_back {PubKey : Type} `{PubKeyOps PubKey}
    (ChainID : list byte) (chain : Chain.ChainT) (pub : PubKey) (fuel : nat) :
  Spec.well_formed ChainID chain ->
  (length (Chain.blocks chain) <= fuel)%nat ->
  Chain.LazyInterval fuel chain pub = Ret (Spec.LazyInterval chain pub).
Proof.
  intros Hwf Hfuel.
  destruct (exists_last (Spec.wf_genesis _ _ Hwf)) as (pre & tail & Hblocks).
  unfold Chain.LazyInterval, Spec.LazyInterval.
  rewrite (LastHash_tail chain pre tail Hblocks)
    by (apply (Spec.wf_length _ _ Hwf) || apply (Spec.wf_small _ _ Hwf)).
  cbn. rewrite Find_hash.
  - rewrite (loop_walk_back ChainID chain pub Hwf pre tail [] fuel 0 Hblocks).
    + rewrite Hblocks, rev_unit.
      destruct (Spec.walk_back pub (tail :: rev pre)); reflexivity.
    + rewrite Hblocks, length_app in Hfuel. cbn in Hfuel. lia.
  - apply (Spec.wf_hashes _ _ Hwf).
  - rewrite Hblocks. apply elem_of_app. right. apply elem_of_cons. now left.
Qed.

Lemma chain2_well_formed : Spec.well_formed Sample.ChainID Sample.chain2.
Proof.
  split.
  - reflexivity.
  - discriminate.
  - reflexivity.
  - reflexivity.
  - apply (bool_decide_unpack _). vm_compute. exact I.
  - apply (bool_decide_unpack _). vm_compute. exact I.
  - repeat constructor; discriminate.
Qed.

Lemma LazyInterval_walks_back_witness :
  Chain.LazyInterval 2 Sample.chain2 "alice"%string
  = Ret (Spec.LazyInterval Sample.chain2 "alice"%string).
Proof.
  apply (LazyInterval_walks_back Sample.ChainID Sample.chain2 "alice"%string 2).
  - exact chain2_well_formed.
  - cbn. lia.
Defined.

(** Without the back-links of a well-formed chain the walk need not
    end: on a block that links to itself no fuel suffices. *)
Example LazyInterval_self_link (fuel : nat) :
  Chain.LazyInterval fuel Sample.loop_chain "bob"%string = Timeout.
Proof.
  unfold Chain.LazyInterval.
  change (Chain.LastHash Sample.loop_chain) with (Ret (Block.Hash Sample.loop_block)).
  change (Chain.Find Sample.loop_chain (Block.Hash Sample.loop_block))
    with (Some Sample.loop_block).
  cbn [mbind outcome_bind]. generalize 0.
  induction fuel as [|fuel IH]; intros diff; [reflexivity|].
  cbn [Chain.LazyInterval_loop].
  change (Equal "bob"%string (Block.Validator Sample.loop_block)) with false.
  change (Block.Range Sample.loop_block 0 (Block.Length Sample.loop_block))
    with (Some ([] : list (Transaction.t string))).
  cbn [existsb].
  change (Chain.Find Sample.loop_chain (Block.LastHash Sample.loop_block))
    with (Some Sample.loop_block).
  apply IH.
Qed.

(** C3, as the code has it. When the level ([LazyInterval]) of every
    candidate is known and some candidate has a level of 0 or more,
    [SelectLazy] returns a candidate of the greatest level [M]: the
    element at index [u64(load(LastHash)) mod |tied|] of the candidates
    of level [M], sorted by address, ascending and stable. *)
Theorem SelectLazy_laziest {PubKey : Type} `{PubKeyOps PubKey}
    (fuel : nat) (chain : Chain.ChainT) (validators : list PubKey)
    (level : PubKey -> Z) :
  (forall q, q ∈ validators -> Chain.LazyInterval fuel chain q = Ret (level q)) ->
  (exists q, q ∈ validators /\ 0 <= level q) ->
  exists (h : list byte) (M : Z) (sorted : list PubKey) (pub : PubKey),
    Chain.LastHash chain = Ret h
    /\ (forall q, q ∈ validators -> level q <= M)
    /\ Spec.sorted_by_Address (Spec.tied level M validators) sorted
    /\ Chain.SelectLazy fuel chain validators = Ret pub
    /\ pub ∈ validators
    /\ level pub = M
    /\ sorted !! Z.to_nat (BigInt.Uint64 (BigInt.LoadInt h)
                           mod Z.of_nat (length (Spec.tied level M validators)))
       = Some pub.
Proof.
  intros Hlevels (q & Hq & Hlevel).
  destruct (LazyInterval_LastHash _ _ _ _ (Hlevels q Hq)) as [h Hlast].
  destruct (tied_some level validators q Hq Hlevel) as [p Hp].
  destruct (SelectLazy_tied fuel chain level validators h Hlevels Hlast)
    as (pub & Hselect & Hpub).
  { intros Hnil. rewrite Hnil in Hp. now apply elem_of_nil in Hp. }
  pose proof (SliceStable_by_Address
                (Spec.tied level (Spec.greatest level 0 validators) validators))
    as Hsorted.
  exists h, (Spec.greatest level 0 validators),
    (SliceStable Chain.less
       (Spec.tied level (Spec.greatest level 0 validators) validators)), pub.
  split; [exact Hlast|]. split; [intros q'; apply greatest_upper|].
  split; [exact Hsorted|]. split; [exact Hselect|].
  assert (Hin : pub ∈ Spec.tied level (Spec.greatest level 0 validators) validators).
  { apply list_elem_of_lookup_2 in Hpub. apply list_elem_of_In.
    apply list_elem_of_In in Hpub.
    eapply Permutation_in; [symmetry; apply Hsorted | exact Hpub]. }
  apply list_elem_of_In, filter_In in Hin as [Hin HM].
  split; [now apply list_elem_of_In|]. split; [now apply Z.eqb_eq | exact Hpub].
Qed.

Lemma chain3_levels (q : string) :
  q ∈ Sample.candidates ->
  Chain.LazyInterval 3 Sample.chain3 q = Ret (Sample.in_tail q).
Proof.
  intros Hq. repeat (apply elem_of_cons in Hq as [->|Hq]; [reflexivity|]).
  now apply elem_of_nil in Hq.
Qed.

Lemma SelectLazy_laziest_witness :
  exists (h : list byte) (M : Z) (sorted : list string) (pub : string),
    Chain.LastHash Sample.chain3 = Ret h
    /\ (forall q, q ∈ Sample.candidates -> Sample.in_tail q <= M)
    /\ Spec.sorted_by_Address
         (Spec.tied Sample.in_tail M Sample.candidates) sorted
    /\ Chain.SelectLazy 3 Sample.chain3 Sample.candidates = Ret pub
    /\ pub ∈ Sample.candidates
    /\ Sample.in_tail pub = M
    /\ sorted !! Z.to_nat
                   (BigInt.Uint64 (BigInt.LoadInt h)
                    mod Z.of_nat
                          (length (Spec.tied Sample.in_tail M Sample.candidates)))
       = Some pub.
Proof.
  apply (SelectLazy_laziest 3 Sample.chain3 Sample.candidates Sample.in_tail).
  - exact chain3_levels.
  - exists "bob"%string. split; [|unfold Sample.in_tail; lia].
    apply elem_of_cons. right. apply elem_of_cons. now left.
Defined.

(** The tie-break scenario of the spec: three candidates of level 0 on
    a chain whose last hash reads 7; the second of the sorted
    candidates is returned. *)
Example SelectLazy_tie_break :
  Chain.SelectLazy 3 Sample.chain3 Sample.candidates = Ret "bob"%string.
Proof. reflexivity. Qed.

(** C3, as stated, fails: the only candidate has never been seen, its
    lazy interval -1 is the greatest of the candidate set, and
    [SelectLazy] returns no validator. *)
Lemma SelectLazy_unknown_candidate :
  Chain.LazyInterval 2 Sample.chain2 "dave"%string = Ret (-1)
  /\ Chain.SelectLazy 2 Sample.chain2 ["dave"%string] = Panic IndexOutOfRange.
Proof. split; reflexivity. Qed.

(** C4. [Append] on the nil object does not return the error "block is
    null": the type assertion [obj.(Block)] panics before the nil
    check. *)
Theorem Append_nil_panics {PubKey : Type} (chain : @Chain.ChainT PubKey) :
  Chain.Append chain Chain.ObjNil = Panic TypeAssertion.
Proof. reflexivity. Qed.

(** C5. After [Broadcast(m)] on a node none of whose readers holds a
    copy of [m] read before, and for as long as the hash of [m] stays
    in the seen-set (no [setMapping] evicts it), whatever else the node
    receives, broadcasts, connects or registers: no handler is invoked
    for a copy of [m], and a copy that a reader receives next is
    dropped. *)
Theorem Broadcast_copies_dropped (ConnSize MappSize RetrySize : Z)
    (IsNode IsClient : byte) (w w1 w2 : Node.World) (m : Node.Message)
    (first : string) (ls : list Node.label) :
  Node.none_holds (Node.Hash m) w ->
  Node.step ConnSize MappSize RetrySize IsNode IsClient
    (Node.CallBroadcast m first) w = Some w1 ->
  Node.stays_seen ConnSize MappSize RetrySize IsNode IsClient
    (Node.Hash m) ls w1 = true ->
  Node.run ConnSize MappSize RetrySize IsNode IsClient ls w1 = Some w2 ->
  Node.handled (Node.Hash m) (Node.calls w2)
  = Node.handled (Node.Hash m) (Node.calls w)
  /\ Node.inMapping (Node.node w2) (Node.Hash m) = true
  /\ (forall conn : Node.Conn,
        is_Some (Node.reading RetrySize w2 conn) ->
        Node.step ConnSize MappSize RetrySize IsNode IsClient (Node.Recv conn m) w2
        = Some w2).
Proof.
  intros Hnone Hcast Hstays Hrun. cbn in Hcast.
  destruct (Node.first_key MappSize first (Node.node w)); [|discriminate].
  injection Hcast as <-.
  destruct (run_seen ConnSize MappSize RetrySize IsNode IsClient (Node.Hash m) ls
              _ w2 Hrun Hstays) as (Hseen & _ & Hcalls).
  - apply setMapping_in.
  - exact Hnone.
  - split; [exact Hcalls|]. split; [exact Hseen|].
    intros conn [r Hr]. cbn. rewrite Hr. cbn. rewrite Hseen. reflexivity.
Qed.

Lemma with_handler_none_holds :
  Node.none_holds (Node.Hash Sample.gossip) Sample.with_handler.
Proof. intros conn r Hr. vm_compute in Hr. discriminate Hr. Qed.

Lemma Broadcast_copies_dropped_witness :
  Node.handled (Node.Hash Sample.gossip) (Node.calls Sample.after_traffic)
  = Node.handled (Node.Hash Sample.gossip) (Node.calls Sample.with_handler)
  /\ Node.inMapping (Node.node Sample.after_traffic) (Node.Hash Sample.gossip) = true
  /\ (forall conn : Node.Conn,
        is_Some (Node.reading Sample.RetrySize Sample.after_traffic conn) ->
        Sample.step (Node.Recv conn Sample.gossip) Sample.after_traffic
        = Some Sample.after_traffic).
Proof.
  apply (Broadcast_copies_dropped Sample.ConnSize Sample.MappSize Sample.RetrySize
           Sample.IsNode Sample.IsClient Sample.with_handler Sample.broadcast
           Sample.after_traffic Sample.gossip "" Sample.traffic).
  - exact with_handler_none_holds.
  - vm_compute. reflexivity.
  - vm_compute. reflexivity.
  - vm_compute. reflexivity.
Defined.

(** C5, the claim as worded. Copies of [m] received after
    [Broadcast(m)] can reach the handler more than once: with the
    seen-set over [MappSize], a [setMapping] for another message evicts
    the hash of [m], the next copy is dispatched, and so again. *)
Example Broadcast_copy_handled_twice :
  exists w1 w2,
    Sample.step (Node.CallBroadcast Sample.gossip "") Sample.peer_with_handler
    = Some w1
    /\ Sample.run Sample.evicting w1 = Some w2
    /\ Node.handled (Node.Hash Sample.gossip) (Node.calls Sample.peer_with_handler) = []
    /\ Node.handled (Node.Hash Sample.gossip) (Node.calls w2)
       = [(5%nat, 1%nat, Sample.gossip); (5%nat, 1%nat, Sample.gossip)].
Proof. eexists _, _. vm_compute. repeat split. Qed.

(** C6. A node that holds [ConnSize] connections does not refuse the
    next inbound one: [hasMaxConnSize] is false, the connection is not
    closed, [setConnection] admits it, and the set holds
    [ConnSize + 1]. *)
Theorem Listen_admits_at_ConnSize (ConnSize MappSize RetrySize : Z)
    (IsNode IsClient : byte) (w : Node.World) (conn : Node.Conn) :
  Z.of_nat (size (Node.connections (Node.node w))) = ConnSize ->
  Node.connections (Node.node w) !! conn = None ->
  exists w1 w2,
    Node.step ConnSize MappSize RetrySize IsNode IsClient (Node.AcceptCheck conn) w
    = Some w1
    /\ Node.step ConnSize MappSize RetrySize IsNode IsClient
         (Node.AcceptRole conn IsNode) w1
       = Some w2
    /\ Node.connections (Node.node w2) !! conn = Some true
    /\ Node.closed w2 = Node.closed w
    /\ Z.of_nat (size (Node.connections (Node.node w2))) = ConnSize + 1.
Proof.
  intros Hsize Hfresh.
  destruct (accept_at_ConnSize ConnSize MappSize RetrySize IsNode IsClient w conn
              Hsize Hfresh) as (w1 & w2 & Hcheck & Hrole & Hconns & Hclosed & Hsize2).
  exists w1, w2. split; [exact Hcheck|]. split; [exact Hrole|].
  split; [|split; [exact Hclosed | exact Hsize2]].
  rewrite Hconns. apply lookup_insert_eq.
Qed.

Lemma Listen_admits_at_ConnSize_witness :
  exists w1 w2,
    Sample.step (Node.AcceptCheck 3%nat) Sample.two_peers = Some w1
    /\ Sample.step (Node.AcceptRole 3%nat Sample.IsNode) w1 = Some w2
    /\ Node.connections (Node.node w2) !! 3%nat = Some true
    /\ Node.closed w2 = Node.closed Sample.two_peers
    /\ Z.of_nat (size (Node.connections (Node.node w2))) = Sample.ConnSize + 1.
Proof.
  apply (Listen_admits_at_ConnSize Sample.ConnSize Sample.MappSize Sample.RetrySize
           Sample.IsNode Sample.IsClient Sample.two_peers 3%nat).
  - vm_compute. reflexivity.
  - vm_compute. reflexivity.
Defined.

(** C7. The seen-set of a node never holds more than [MappSize + 1]
    hashes, but [MappSize + 1] it does hold after an insert: a seen-set
    of [MappSize] hashes is not "over" [MappSize], nothing is evicted,
    and a new hash makes it [MappSize + 1]. *)
Theorem setMapping_past_MappSize (ConnSize MappSize RetrySize : Z)
    (IsNode IsClient : byte) :
  0 <= MappSize ->
  (forall (ls : list Node.label) (w : Node.World),
      Node.run ConnSize MappSize RetrySize IsNode IsClient ls Node.NewWorld = Some w ->
      Z.of_nat (size (Node.mapping (Node.node w))) <= MappSize + 1)
  /\ (forall (first : string) (n : Node.NodeT) (hash : string),
        Z.of_nat (size (Node.mapping n)) = MappSize ->
        Node.mapping n !! hash = None ->
        Z.of_nat (size (Node.mapping (Node.setMapping MappSize first n hash)))
        = MappSize + 1).
Proof.
  intros HM. split.
  - intros ls w Hrun.
    eapply (run_mapping_size ConnSize MappSize RetrySize IsNode IsClient ls HM);
      [|exact Hrun].
    cbn. rewrite map_size_empty. lia.
  - intros first n hash. apply setMapping_grows.
Qed.

Lemma setMapping_past_MappSize_witness :
  Z.of_nat (size (Node.mapping
                    (Node.setMapping Sample.MappSize "a" Sample.two_seen "c")))
  = Sample.MappSize + 1.
Proof.
  apply (proj2 (setMapping_past_MappSize Sample.ConnSize Sample.MappSize
                  Sample.RetrySize Sample.IsNode Sample.IsClient ltac:(vm_compute; discriminate))).
  - vm_compute. reflexivity.
  - vm_compute. reflexivity.
Defined.

(** C8, as the code has it. [Range] narrows its arguments to 64 bits
    and slices: within [0 <= x <= y <= length] it returns the blocks
    [x, y); it panics when the narrowed [x] exceeds the narrowed [y];
    a narrowed [y] past the number of blocks is past the length of the
    slice; and arguments are served like their narrowings. *)
Theorem Range_slices {PubKey : Type} (chain : @Chain.ChainT PubKey) (x y : Z) :
  Chain.length chain = Z.of_nat (length (Chain.blocks chain)) ->
  Chain.length chain < 2 ^ 64 ->
  (0 <= x <= y /\ y <= Chain.length chain ->
   Chain.Range chain x y
   = Within (take (Z.to_nat (y - x)) (drop (Z.to_nat x) (Chain.blocks chain))))
  /\ (BigInt.Uint64 y < BigInt.Uint64 x -> Chain.Range chain x y = Inverted)
  /\ (BigInt.Uint64 x <= BigInt.Uint64 y ->
      Chain.length chain < BigInt.Uint64 y ->
      Chain.Range chain x y = PastLength)
  /\ Chain.Range chain x y
     = Chain.Range chain (BigInt.Uint64 x) (BigInt.Uint64 y).
Proof.
  intros Hlen Hsmall. split; [|split; [|split]].
  - intros [Hxy Hy]. unfold Chain.Range.
    rewrite !Uint64_small by lia. apply slice_within. lia.
  - intros Hinv. unfold Chain.Range, slice.
    destruct (Z.ltb_spec (BigInt.Uint64 y) (BigInt.Uint64 x)); [reflexivity | lia].
  - intros Hxy Hpast. unfold Chain.Range, slice.
    destruct (Z.ltb_spec (BigInt.Uint64 y) (BigInt.Uint64 x)); [lia|].
    destruct (Z.ltb_spec (Z.of_nat (length (Chain.blocks chain))) (BigInt.Uint64 y));
      [reflexivity | lia].
  - apply Range_narrowed.
Qed.

Lemma Range_slices_witness :
  Chain.Range Sample.chain3 1 3
  = Within (take (Z.to_nat (3 - 1)) (drop (Z.to_nat 1) (Chain.blocks Sample.chain3))).
Proof.
  apply (proj1 (Range_slices Sample.chain3 1 3 eq_refl eq_refl)).
  cbn. lia.
Defined.

(** C8, as stated, fails: on the chain of one block the arguments
    [2^64] and [2^64 + 1] are out of range, and [Range] returns the
    block instead of failing. *)
Lemma Range_wraps_around :
  Chain.length Sample.chain1 < 2 ^ 64
  /\ Chain.Range Sample.chain1 (2 ^ 64) (2 ^ 64 + 1)
     = Within (Chain.blocks Sample.chain1).
Proof. split; reflexivity. Qed.

(** C9. Parsing the decimal rendering of a BigInteger gives it back,
    and so does loading the bytes of a non-negative one. *)
Theorem BigInt_roundtrip :
  (forall x : BigInt.BigInt, BigInt.NewInt (BigInt.String x) = Some x)
  /\ (forall x : BigInt.BigInt, 0 <= x -> BigInt.LoadInt (BigInt.Bytes x) = x).
Proof.
  split.
  - apply NewInt_String.
  - intros x Hx. rewrite LoadInt_Bytes. lia.
Qed.

(** C10. When no candidate has a lazy interval of 0 or more (all are
    the sentinel -1, or the list is empty), the candidates kept by the
    loop are none and [finds[0]] is out of range: [SelectLazy] panics. *)
Theorem SelectLazy_no_candidate {PubKey : Type} `{PubKeyOps PubKey}
    (fuel : nat) (chain : Chain.ChainT) (validators : list PubKey) :
  (forall q, q ∈ validators ->
             exists v, Chain.LazyInterval fuel chain q = Ret v /\ v < 0) ->
  Chain.SelectLazy fuel chain validators = Panic IndexOutOfRange.
Proof.
  intros Hneg.
  set (level := fun q => match Chain.LazyInterval fuel chain q with
                         | Ret v => v
                         | _ => 0
                         end).
  assert (Hlevels : forall q, q ∈ validators ->
                              Chain.LazyInterval fuel chain q = Ret (level q)).
  { intros q Hq. destruct (Hneg q Hq) as (v & Hv & _). unfold level. now rewrite Hv. }
  assert (Hlow : forall q, q ∈ validators -> level q < 0).
  { intros q Hq. destruct (Hneg q Hq) as (v & Hv & Hlt). unfold level. now rewrite Hv. }
  unfold Chain.SelectLazy.
  rewrite (SelectLazy_range_levels fuel chain level) by assumption.
  rewrite (tied_none level validators Hlow).
  now case_bool_decide.
Qed.

Lemma SelectLazy_no_candidate_witness :
  Chain.SelectLazy 2 Sample.chain2 ["dave"; "erin"]%string = Panic IndexOutOfRange.
Proof.
  apply (SelectLazy_no_candidate 2 Sample.chain2 ["dave"; "erin"]%string).
  intros q Hq. exists (-1). split; [|lia].
  repeat (apply elem_of_cons in Hq as [->|Hq]; [reflexivity|]).
  now apply elem_of_nil in Hq.
Defined.

Example SelectLazy_empty :
  Chain.SelectLazy 2 Sample.chain2 ([] : list string) = Panic IndexOutOfRange.
Proof. reflexivity. Qed.

(** * Further properties of the code *)

(** ** BigInt *)

Section BigIntMore.

Import BigInt.
Import Notions.

Lemma lsd_digits_zero (fuel : nat) (base : N) : lsd_digits fuel base 0 = [].
Proof. now destruct fuel. Qed.

Lemma trimmed_value (base : N) (l : list N) :
  (2 <= base)%N -> trimmed l -> l <> [] ->
  fold_right (fun d a => (base * a + d)%N) 0%N l <> 0%N.
Proof.
  intros Hb. induction l as [|d l IH]; intros Htr Hne; [congruence|].
  cbn [fold_right]. destruct l as [|e l].
  - cbn in *. lia.
  - assert (fold_right (fun d a => (base * a + d)%N) 0%N (e :: l) <> 0%N)
      by (apply IH; [exact Htr | discriminate]).
    nia.
Qed.

(** The digits of a number are the only trimmed digit list of its
    value. *)
Lemma lsd_digits_unique (base : N) (l : list N) :
  (2 <= base)%N ->
  Forall (fun d => (d < base)%N) l -> trimmed l ->
  forall fuel,
    (fold_right (fun d a => (base * a + d)%N) 0%N l < 2 ^ N.of_nat fuel)%N ->
    lsd_digits fuel base (fold_right (fun d a => (base * a + d)%N) 0%N l) = l.
Proof.
  intros Hb. induction 1 as [|d l Hd Hl IH]; intros Htr fuel Hfuel.
  - apply lsd_digits_zero.
  - pose proof (trimmed_value base (d :: l) Hb Htr ltac:(discriminate)) as Hnz.
    cbn [fold_right] in *.
    set (v := fold_right (fun d a => (base * a + d)%N) 0%N l) in *.
    destruct fuel as [|fuel]; [cbn in Hfuel; lia|].
    cbn [lsd_digits]. destruct (N.eqb_spec (base * v + d) 0); [congruence|].
    assert (Hmod : ((base * v + d) mod base = d)%N).
    { rewrite N.add_comm, N.mul_comm, N.Div0.mod_add. now apply N.mod_small. }
    assert (Hdiv : ((base * v + d) / base = v)%N).
    { rewrite N.add_comm, N.mul_comm, N.div_add by lia.
      rewrite N.div_small by assumption. reflexivity. }
    rewrite Hmod, Hdiv. f_equal.
    rewrite Nat2N.inj_succ, N.pow_succ_r' in Hfuel.
    apply IH; [|nia].
    destruct l; [exact I | exact Htr].
Qed.

Lemma trimmed_rev_strip (b : list byte) :
  trimmed (rev (map Byte.to_N (Notions.strip_zeros b))).
Proof.
  assert (Hhead : forall ds : list N,
             match ds with 0%N :: _ => False | _ => True end -> trimmed (rev ds)).
  { intros ds. induction ds as [|d ds IH] using rev_ind; intros Hh; [exact I|].
    rewrite rev_unit. destruct ds as [|e ds].
    - cbn in *. destruct d; [contradiction | discriminate].
    - specialize (IH Hh). destruct (rev (e :: ds)) eqn:Hrev.
      + apply (f_equal (@length N)) in Hrev. rewrite length_rev in Hrev. discriminate.
      + exact IH. }
  apply Hhead. induction b as [|c b IH]; [exact I|].
  destruct c; try exact I; exact IH.
Qed.

Lemma LoadInt_strip (b : list byte) :
  LoadInt (Notions.strip_zeros b) = LoadInt b.
Proof.
  induction b as [|c b IH]; [reflexivity|].
  destruct c; try reflexivity. cbn [Notions.strip_zeros]. rewrite IH. reflexivity.
Qed.

(** X1. [Bytes] after [LoadInt] gives the byte string back without its
    leading zero bytes. *)
Theorem Bytes_LoadInt (b : list byte) :
  Bytes (LoadInt b) = Notions.strip_zeros b.
Proof.
  rewrite <- LoadInt_strip. set (c := Notions.strip_zeros b).
  unfold Bytes, LoadInt, SetBytes. rewrite Zabs2N.id.
  unfold digits.
  rewrite <- (rev_involutive (map Byte.to_N c)) at 1 2.
  rewrite horner_rev.
  rewrite lsd_digits_unique.
  - rewrite rev_involutive, map_map.
    rewrite (map_ext _ (fun x => x)); [apply map_id|].
    intros x. unfold byte_of_N. now rewrite Byte.of_to_N.
  - lia.
  - apply Forall_rev, List.Forall_forall. intros d Hd.
    apply in_map_iff in Hd as (x & <- & _).
    pose proof (Byte.to_N_bounded x). lia.
  - apply trimmed_rev_strip.
  - apply size_nat_bound.
Qed.

Lemma horner_acc (base : N) (ds : list N) (acc : N) :
  horner base ds acc
  = (acc * base ^ N.of_nat (length ds) + horner base ds 0)%N.
Proof.
  unfold horner. revert acc. induction ds as [|d ds IH]; intros acc.
  - cbn. lia.
  - cbn [fold_left length]. rewrite IH, (IH (base * 0 + d)%N).
    rewrite Nat2N.inj_succ, N.pow_succ_r'. lia.
Qed.

Lemma horner_bound (base : N) (ds : list N) :
  (0 < base)%N -> Forall (fun d => (d < base)%N) ds ->
  (horner base ds 0 < base ^ N.of_nat (length ds))%N.
Proof.
  intros Hb Hds. induction Hds as [|d ds Hd _ IH].
  - cbn. lia.
  - change (horner base (d :: ds) 0) with (horner base ds (base * 0 + d)).
    rewrite horner_acc. cbn [length].
    rewrite Nat2N.inj_succ, N.pow_succ_r'. nia.
Qed.

Lemma bytes_bounded (b : list byte) :
  Forall (fun d => (d < 256)%N) (map Byte.to_N b).
Proof.
  apply List.Forall_forall. intros d Hd. apply in_map_iff in Hd as (x & <- & _).
  pose proof (Byte.to_N_bounded x). lia.
Qed.

(** X2. [LoadInt(b).Uint64()] reads the last eight bytes of [b]: longer
    input is cut to them, shorter input is read whole. *)
Theorem Uint64_LoadInt :
  (forall pre suf : list byte,
      length suf = 8%nat -> Uint64 (LoadInt (pre ++ suf)) = LoadInt suf)
  /\ (forall b : list byte,
        (length b <= 8)%nat -> Uint64 (LoadInt b) = LoadInt b).
Proof.
  assert (Hsmall : forall b : list byte,
             (length b <= 8)%nat -> 0 <= LoadInt b < 2 ^ 64).
  { intros b Hb. unfold LoadInt, SetBytes.
    pose proof (horner_bound 256 (map Byte.to_N b) ltac:(lia) (bytes_bounded b)) as Hlt.
    rewrite length_map in Hlt.
    assert (256 ^ N.of_nat (length b) <= 256 ^ 8)%N by (apply N.pow_le_mono_r; lia).
    change (256 ^ 8)%N with 18446744073709551616%N in *.
    change (2 ^ 64) with 18446744073709551616. lia. }
  split.
  - intros pre suf Hsuf. pose proof (Hsmall suf ltac:(lia)) as Hs.
    unfold Uint64, LoadInt, SetBytes in *.
    rewrite map_app. unfold horner at 1. rewrite fold_left_app.
    fold (horner 256 (map Byte.to_N suf) (fold_left (fun a d => (256 * a + d)%N)
                                              (map Byte.to_N pre) 0%N)).
    rewrite horner_acc, length_map, Hsuf.
    change (256 ^ N.of_nat 8)%N with 18446744073709551616%N.
    change (2 ^ 64) with 18446744073709551616 in *.
    rewrite Z.abs_eq by lia. rewrite N2Z.inj_add, N2Z.inj_mul.
    change (Z.of_N 18446744073709551616) with 18446744073709551616.
    rewrite Z.add_comm, Z.mod_add by lia. apply Z.mod_small. lia.
  - intros b Hb. pose proof (Hsmall b Hb) as Hs. unfold Uint64.
    rewrite Z.abs_eq by lia. apply Z.mod_small. lia.
Qed.

(** X3. [Bytes] holds the absolute value only: a number and its
    negation have the same bytes, and [LoadInt] of the bytes of [x] is
    [|x|]. *)
Theorem Bytes_drops_sign (x : BigInt) :
  Bytes (- x) = Bytes x /\ LoadInt (Bytes x) = Z.abs x.
Proof.
  split.
  - unfold Bytes. now rewrite Zabs2N.inj_opp.
  - apply LoadInt_Bytes.
Qed.

Lemma digit_of_ascii_is_Some (c : ascii) :
  is_Some (digit_of_ascii c) <-> is_digit c.
Proof.
  unfold digit_of_ascii, is_digit.
  destruct (N.leb_spec 48 (N_of_ascii c)); destruct (N.leb_spec (N_of_ascii c) 57);
    cbn; split; intros Hc; try lia; try (destruct Hc; discriminate); eauto.
Qed.

Lemma scan_digits_is_Some (s : string) :
  forall acc, is_Some (scan_digits s acc) <-> Forall is_digit (list_ascii_of_string s).
Proof.
  induction s as [|c s IH]; intros acc; cbn.
  - split; [constructor | eauto].
  - rewrite Forall_cons, <- digit_of_ascii_is_Some.
    destruct (digit_of_ascii c) as [d|].
    + rewrite IH. split; [eauto | tauto].
    + split; [intros []; discriminate | intros [[] _]; discriminate].
Qed.

Lemma scan_nat_is_Some (s : string) :
  is_Some (scan_nat s)
  <-> s <> ""%string /\ Forall is_digit (list_ascii_of_string s).
Proof.
  destruct s as [|c s].
  - cbn. split; [intros []; discriminate | intros []; congruence].
  - unfold scan_nat. rewrite scan_digits_is_Some. split; [split; [discriminate|]|]; tauto.
Qed.

Lemma is_Some_option_map {A B : Type} (f : A -> B) (o : option A) :
  is_Some (option_map f o) <-> is_Some o.
Proof. destruct o; cbn; split; intros []; try discriminate; eauto. Qed.

Lemma sign_no_digit : ~ is_digit "-"%char /\ ~ is_digit "+"%char.
Proof. unfold is_digit. cbn. lia. Qed.

(** X4. [NewInt] returns a number exactly for an optional sign followed
    by one or more decimal digits; the empty string, a lone sign and
    any other character make it return nil. *)
Theorem NewInt_accepts (s : string) :
  is_Some (NewInt s) <-> signed_decimal s.
Proof.
  unfold NewInt, signed_decimal. destruct s as [|c rest].
  - cbn. split; [intros []; discriminate|].
    intros (sign & digits & _ & Hne & _ & Heq). exfalso.
    destruct sign; [cbv [String.append] in Heq; congruence | discriminate Heq].
  - destruct sign_no_digit as [Hminus Hplus].
    destruct (ascii_dec c "-"%char) as [->|Hc1]; [|destruct (ascii_dec c "+"%char) as [->|Hc2]].
    + change (SetString10 (String.String "-"%char rest))
        with (option_map (fun n => - Z.of_N n) (scan_nat rest)).
      rewrite is_Some_option_map, scan_nat_is_Some. split.
      * intros [Hne Hd]. exists "-"%string, rest. auto.
      * intros (sign & digits & Hsign & Hne & Hd & Heq).
        destruct Hsign as [-> | [-> | ->]]; cbv [String.append] in Heq.
        -- subst digits. cbn in Hd. apply Forall_cons in Hd as [Hd _]. contradiction.
        -- discriminate Heq.
        -- injection Heq as <-. auto.
    + change (SetString10 (String.String "+"%char rest))
        with (option_map Z.of_N (scan_nat rest)).
      rewrite is_Some_option_map, scan_nat_is_Some. split.
      * intros [Hne Hd]. exists "+"%string, rest. auto.
      * intros (sign & digits & Hsign & Hne & Hd & Heq).
        destruct Hsign as [-> | [-> | ->]]; cbv [String.append] in Heq.
        -- subst digits. cbn in Hd. apply Forall_cons in Hd as [Hd _]. contradiction.
        -- injection Heq as <-. auto.
        -- discriminate Heq.
    + rewrite SetString10_unsigned by assumption.
      rewrite is_Some_option_map, scan_nat_is_Some. split.
      * intros [Hne Hd]. exists ""%string, (String.String c rest). auto.
      * intros (sign & digits & Hsign & Hne & Hd & Heq).
        destruct Hsign as [-> | [-> | ->]]; cbv [String.append] in Heq.
        -- subst digits. auto.
        -- congruence.
        -- congruence.
Qed.

(** X5. [Cmp] is an order on the integers and [Inc] always gives a
    greater number: [Cmp] returns -1, 0 or 1, it is 0 for equal
    numbers only, it flips with its arguments, and [x.Inc()] compares
    greater than [x]. *)
Theorem Cmp_Inc (x y : BigInt) :
  (Cmp x y = -1 \/ Cmp x y = 0 \/ Cmp x y = 1)
  /\ (Cmp x y = 0 <-> x = y)
  /\ (Cmp x y = -1 <-> x < y)
  /\ Cmp x y = - Cmp y x
  /\ Cmp (Inc x) x = 1.
Proof.
  unfold Cmp, Inc.
  destruct (Z.compare_spec x y); destruct (Z.compare_spec y x);
    destruct (Z.compare_spec (x + 1) x); try lia.
  all: repeat split; intros; try lia; auto.
Qed.

(** X6. [Uint64] narrows: a number of 64 bits is returned as it is, the
    sign is dropped, and multiples of 2^64 are cut off. *)
Theorem Uint64_narrows (x : BigInt) :
  0 <= Uint64 x < 2 ^ 64
  /\ (Uint64 x = x <-> 0 <= x < 2 ^ 64)
  /\ Uint64 (- x) = Uint64 x
  /\ Uint64 (Z.abs x + 2 ^ 64) = Uint64 x.
Proof.
  unfold Uint64. pose proof (Z.mod_pos_bound (Z.abs x) (2 ^ 64) ltac:(lia)) as Hb.
  split; [exact Hb|]. split; [|split].
  - split.
    + intros Heq. rewrite <- Heq. exact Hb.
    + intros Hx. rewrite Z.abs_eq by lia. apply Z.mod_small. lia.
  - now rewrite Z.abs_opp.
  - rewrite (Z.abs_eq (Z.abs x + 2 ^ 64)) by lia.
    rewrite <- (Z.mul_1_l (2 ^ 64)) at 1. now rewrite Z.mod_add by lia.
Qed.

End BigIntMore.

(** ** Chain *)

Lemma find_first {PubKey : Type} (hash : list byte)
    (bs : list (Block.t PubKey)) (block : Block.t PubKey) :
  List.find (fun b => bytes_Equal hash (Block.Hash b)) bs = Some block
  <-> exists pre suf,
        bs = pre ++ block :: suf
        /\ Block.Hash block = hash
        /\ Forall (fun c => Block.Hash c <> hash) pre.
Proof.
  induction bs as [|b bs IH]; cbn [List.find].
  - split; [discriminate|]. intros (pre & suf & Heq & _). now destruct pre.
  - unfold bytes_Equal at 1. case_bool_decide as Hb.
    + split.
      * intros [= <-]. exists [], bs. auto.
      * intros (pre & suf & Heq & Hhash & Hpre). destruct pre as [|c pre].
        -- now injection Heq as <- _.
        -- injection Heq as <- _. apply Forall_cons in Hpre as [Hc _]. congruence.
    + rewrite IH. split.
      * intros (pre & suf & -> & Hhash & Hpre). exists (b :: pre), suf.
        split; [reflexivity|]. split; [assumption|]. constructor; [congruence | assumption].
      * intros (pre & suf & Heq & Hhash & Hpre). destruct pre as [|c pre].
        -- injection Heq as <- _. congruence.
        -- injection Heq as <- ->. apply Forall_cons in Hpre as [_ Hpre]. eauto.
Qed.

Lemma find_none {PubKey : Type} (hash : list byte) (bs : list (Block.t PubKey)) :
  List.find (fun b => bytes_Equal hash (Block.Hash b)) bs = None
  <-> Forall (fun c => Block.Hash c <> hash) bs.
Proof.
  induction bs as [|b bs IH]; cbn [List.find].
  - split; [constructor | reflexivity].
  - unfold bytes_Equal at 1. case_bool_decide as Hb.
    + split; [discriminate|]. intros [Hc _]%Forall_cons. congruence.
    + rewrite IH, Forall_cons. split; [split; [congruence|]|]; tauto.
Qed.

(** X7. [Find] returns the first block of the chain whose hash is the
    one asked for, and nil exactly when no block has it. *)
Theorem Find_first {PubKey : Type} (chain : @Chain.ChainT PubKey)
    (hash : list byte) :
  (forall block,
      Chain.Find chain hash = Some block
      <-> exists pre suf,
            Chain.blocks chain = pre ++ block :: suf
            /\ Block.Hash block = hash
            /\ Forall (fun c => Block.Hash c <> hash) pre)
  /\ (Chain.Find chain hash = None
      <-> Forall (fun c => Block.Hash c <> hash) (Chain.blocks chain)).
Proof. split; [intros block; apply find_first | apply find_none]. Qed.

(** X8. [LastHash] reads the block at index [length.Uint64() - 1],
    whatever [blocks] holds behind it: over fewer than 2^64 blocks it
    returns the hash of the block at that index when there is one, and
    panics on the index exactly when the low 64 bits of [|length|] are
    0 or exceed the number of blocks. A [length] that is negative or
    2^64 and more is read by those 64 bits. *)
Theorem LastHash_reads_length {PubKey : Type} (chain : @Chain.ChainT PubKey) :
  Z.of_nat (length (Chain.blocks chain)) < 2 ^ 64 ->
  (forall h : list byte,
      Chain.LastHash chain = Ret h
      <-> exists (i : nat) block,
            BigInt.Uint64 (Chain.length chain) = Z.of_nat i + 1
            /\ Chain.blocks chain !! i = Some block
            /\ h = Block.Hash block)
  /\ (Chain.LastHash chain = Panic IndexOutOfRange
      <-> BigInt.Uint64 (Chain.length chain) = 0
          \/ Z.of_nat (length (Chain.blocks chain))
             < BigInt.Uint64 (Chain.length chain)).
Proof.
  intros Hblocks. unfold Chain.LastHash.
  pose proof (Uint64_range (Chain.length chain)) as Hn.
  destruct (Z.eq_dec (BigInt.Uint64 (Chain.length chain)) 0) as [H0|H0].
  - rewrite H0. change ((0 - 1) mod 2 ^ 64) with (2 ^ 64 - 1).
    rewrite index_out_of_range by lia. cbn. split.
    + intros h. split; [discriminate|]. intros (i & block & Hi & _). lia.
    + split; auto.
  - rewrite Z.mod_small by lia.
    destruct (Z.ltb_spec (Z.of_nat (length (Chain.blocks chain)))
                (BigInt.Uint64 (Chain.length chain))) as [Hpast|Hin].
    + rewrite index_out_of_range by lia. cbn. split.
      * intros h. split; [discriminate|]. intros (i & block & Hi & Hblock & _).
        apply lookup_lt_Some in Hblock. lia.
      * split; auto.
    + destruct (lookup_lt_is_Some_2 (Chain.blocks chain)
                  (Z.to_nat (BigInt.Uint64 (Chain.length chain) - 1)))
        as [block Hblock]; [lia|].
      replace (BigInt.Uint64 (Chain.length chain) - 1)
        with (Z.of_nat (Z.to_nat (BigInt.Uint64 (Chain.length chain) - 1))) by lia.
      rewrite (index_lookup _ _ _ Hblock). cbn. split.
      * intros h. split.
        -- intros [= <-]. exists (Z.to_nat (BigInt.Uint64 (Chain.length chain) - 1)), block.
           split; [lia | now split].
        -- intros (i & block' & Hi & Hblock' & ->).
           replace i with (Z.to_nat (BigInt.Uint64 (Chain.length chain) - 1)) in Hblock'
             by lia.
           assert (block' = block) as -> by congruence. reflexivity.
      * split; [discriminate | lia].
Qed.

Lemma LastHash_reads_length_witness :
  Chain.LastHash Sample.overlong = Ret (Block.Hash Sample.second).
Proof.
  apply (proj1 (LastHash_reads_length Sample.overlong ltac:(cbn; lia))
           (Block.Hash Sample.second)).
  exists 1%nat, Sample.second. repeat split.
Defined.

(** X9. When [Append] returns an error the chain is the one it was
    given: the error is "block is invalid" for a block that is not
    valid, and "relation is invalid" for a valid block whose [LastHash]
    is not the last hash of the chain. *)
Theorem Append_error_keeps_chain {PubKey : Type} (chain : @Chain.ChainT PubKey)
    (obj : Chain.Object) (e : string) (chain' : @Chain.ChainT PubKey) :
  Chain.Append chain obj = Ret (Some e, chain') ->
  chain' = chain
  /\ exists block,
       obj = Chain.ObjBlock block
       /\ ((e = "block is invalid"%string /\ Block.IsValid block = false)
           \/ (e = "relation is invalid"%string
               /\ Block.IsValid block = true
               /\ exists h, Chain.LastHash chain = Ret h
                            /\ Block.LastHash block <> h)).
Proof.
  unfold Chain.Append. destruct obj as [|block|tx]; cbn; try discriminate.
  destruct (Block.IsValid block) eqn:Hv; cbn.
  - destruct (Chain.LastHash chain) as [h| |] eqn:Hlast; cbn; try discriminate.
    unfold bytes_Equal. case_bool_decide as Hh; cbn; intros [= <- <-].
    split; [reflexivity|]. exists block. split; [reflexivity|]. right. eauto.
  - intros [= <- <-]. split; [reflexivity|]. exists block. auto.
Qed.

Lemma Append_error_keeps_chain_witness :
  Sample.chain1 = Sample.chain1
  /\ exists block,
       Chain.ObjBlock Sample.third = Chain.ObjBlock block
       /\ (("relation is invalid"%string = "block is invalid"%string
            /\ Block.IsValid block = false)
           \/ ("relation is invalid"%string = "relation is invalid"%string
               /\ Block.IsValid block = true
               /\ exists h, Chain.LastHash Sample.chain1 = Ret h
                            /\ Block.LastHash block <> h)).
Proof.
  apply (Append_error_keeps_chain Sample.chain1 (Chain.ObjBlock Sample.third)
           "relation is invalid" Sample.chain1).
  reflexivity.
Defined.

Lemma Append_success_inv {PubKey : Type} (chain chain' : @Chain.ChainT PubKey)
    (obj : Chain.Object) :
  Chain.Append chain obj = Ret (None, chain') ->
  exists block,
    obj = Chain.ObjBlock block
    /\ Block.IsValid block = true
    /\ Chain.LastHash chain = Ret (Block.LastHash block)
    /\ chain' = {| Chain.blocks := Chain.blocks chain ++ [block];
                   Chain.length := Chain.length chain + 1 |}.
Proof.
  unfold Chain.Append. destruct obj as [|block|tx]; cbn; try discriminate.
  destruct (Block.IsValid block) eqn:Hv; cbn; [|discriminate].
  destruct (Chain.LastHash chain) as [h| |] eqn:Hlast; cbn; try discriminate.
  unfold bytes_Equal. case_bool_decide as Hh; cbn; [|discriminate].
  intros [= <-]. exists block. subst h. auto.
Qed.

(** X10. [Append] succeeds exactly for a valid block whose [LastHash]
    is the last hash of the chain; the chain is then the old one with
    the block at its end and [length] one more. *)
Theorem Append_succeeds_iff {PubKey : Type} (chain chain' : @Chain.ChainT PubKey)
    (obj : Chain.Object) :
  Chain.Append chain obj = Ret (None, chain')
  <-> exists block,
        obj = Chain.ObjBlock block
        /\ Block.IsValid block = true
        /\ Chain.LastHash chain = Ret (Block.LastHash block)
        /\ chain' = {| Chain.blocks := Chain.blocks chain ++ [block];
                       Chain.length := Chain.length chain + 1 |}.
Proof.
  split; [apply Append_success_inv|].
  intros (block & -> & Hv & Hlast & ->). now apply Append_ok.
Qed.

Lemma linked_snoc {PubKey : Type} (prev : list byte)
    (pre : list (Block.t PubKey)) (tail block : Block.t PubKey) :
  Spec.linked prev (pre ++ [tail]) = true ->
  Block.LastHash block = Block.Hash tail ->
  Spec.linked prev ((pre ++ [tail]) ++ [block]) = true.
Proof.
  revert prev. induction pre as [|b pre IH]; intros prev; cbn [app Spec.linked].
  - intros Hl Hb. rewrite andb_true_r in Hl. rewrite Hl. cbn.
    unfold bytes_Equal. now rewrite bool_decide_eq_true_2.
  - intros [Hb Hl]%andb_prop Hblock. rewrite Hb. cbn. now apply IH.
Qed.

(** X11. [Append] keeps the invariant of the chain: when [length] is
    the number of blocks and every block links to its predecessor, the
    same holds after a successful [Append], the old blocks are kept in
    place, and the last hash is the hash of the block appended. *)
Theorem Append_keeps_invariant {PubKey : Type} (ChainID : list byte)
    (chain chain' : @Chain.ChainT PubKey) (obj : Chain.Object) :
  Chain.length chain = Z.of_nat (length (Chain.blocks chain)) ->
  Chain.length chain + 1 < 2 ^ 64 ->
  Spec.linked ChainID (Chain.blocks chain) = true ->
  Chain.Append chain obj = Ret (None, chain') ->
  Chain.length chain' = Z.of_nat (length (Chain.blocks chain'))
  /\ Spec.linked ChainID (Chain.blocks chain') = true
  /\ exists block,
       obj = Chain.ObjBlock block
       /\ Chain.blocks chain' = Chain.blocks chain ++ [block]
       /\ Chain.LastHash chain' = Ret (Block.Hash block).
Proof.
  intros Hlen Hsmall Hlinked Happend.
  apply Append_success_inv in Happend as (block & -> & Hv & Hlast & ->).
  assert (Hne : Chain.blocks chain <> []).
  { intros Hnil. unfold Chain.LastHash in Hlast. rewrite Hnil in Hlast.
    rewrite index_out_of_range in Hlast; [discriminate|].
    cbn. apply Z.mod_pos_bound. lia. }
  destruct (exists_last Hne) as (pre & tail & Hblocks).
  rewrite (LastHash_tail chain pre tail Hblocks Hlen) in Hlast by lia.
  injection Hlast as Hlink. cbn [Chain.length Chain.blocks].
  split; [rewrite Hlen, length_app; cbn; lia|].
  split; [rewrite Hblocks in *; apply linked_snoc; [exact Hlinked | now symmetry]|].
  exists block. split; [reflexivity|]. split; [reflexivity|].
  apply (LastHash_tail _ (Chain.blocks chain) block); cbn [Chain.length Chain.blocks].
  - reflexivity.
  - rewrite Hlen, length_app. cbn. lia.
  - lia.
Qed.

Lemma Append_keeps_invariant_witness :
  Chain.length Sample.chain3 = Z.of_nat (length (Chain.blocks Sample.chain3))
  /\ Spec.linked Sample.ChainID (Chain.blocks Sample.chain3) = true
  /\ exists block,
       Chain.ObjBlock Sample.third = Chain.ObjBlock block
       /\ Chain.blocks Sample.chain3 = Chain.blocks Sample.chain2 ++ [block]
       /\ Chain.LastHash Sample.chain3 = Ret (Block.Hash block).
Proof.
  apply (Append_keeps_invariant Sample.ChainID Sample.chain2 Sample.chain3
           (Chain.ObjBlock Sample.third)); reflexivity.
Defined.

Lemma LazyInterval_of_well_formed {PubKey : Type} `{PubKeyOps PubKey}
    (ChainID : list byte) (chain : Chain.ChainT) (pub : PubKey) (fuel : nat) :
  Spec.well_formed ChainID chain ->
  (length (Chain.blocks chain) <= fuel)%nat ->
  Chain.LazyInterval fuel chain pub = Ret (Spec.LazyInterval chain pub).
Proof.
  intros Hwf Hfuel.
  destruct (exists_last (Spec.wf_genesis _ _ Hwf)) as (pre & tail & Hblocks).
  unfold Chain.LazyInterval, Spec.LazyInterval.
  rewrite (LastHash_tail chain pre tail Hblocks (Spec.wf_length _ _ Hwf)
             (Spec.wf_small _ _ Hwf)).
  cbn. rewrite Find_hash; [|apply (Spec.wf_hashes _ _ Hwf)|].
  - rewrite (loop_walk_back ChainID chain pub Hwf pre tail [] fuel 0 Hblocks).
    + rewrite Hblocks, rev_unit.
      destruct (Spec.walk_back pub (tail :: rev pre)); reflexivity.
    + rewrite Hblocks, length_app in Hfuel. cbn in Hfuel. lia.
  - rewrite Hblocks. apply elem_of_app. right. apply elem_of_cons. now left.
Qed.

Lemma well_formed_snoc {PubKey : Type} `{PubKeyOps PubKey} (ChainID : list byte)
    (chain : Chain.ChainT) (block : Block.t PubKey) :
  Spec.well_formed ChainID chain ->
  Chain.LastHash chain = Ret (Block.LastHash block) ->
  Block.Hash block ∉ Block.Hash <$> Chain.blocks chain ->
  Block.Hash block <> ChainID ->
  Block.Range block 0 (Block.Length block) <> None ->
  Chain.length chain + 1 < 2 ^ 64 ->
  Spec.well_formed ChainID
    {| Chain.blocks := Chain.blocks chain ++ [block];
       Chain.length := Chain.length chain + 1 |}.
Proof.
  intros Hwf Hlast Hfresh HID Hrange Hsmall.
  destruct (exists_last (Spec.wf_genesis _ _ Hwf)) as (pre & tail & Hblocks).
  rewrite (LastHash_tail chain pre tail Hblocks (Spec.wf_length _ _ Hwf)
             (Spec.wf_small _ _ Hwf)) in Hlast.
  injection Hlast as Hlink.
  split; cbn [Chain.length Chain.blocks].
  - rewrite (Spec.wf_length _ _ Hwf), length_app. cbn. lia.
  - intros Hnil. now apply app_eq_nil in Hnil as [_ Hnil].
  - exact Hsmall.
  - pose proof (Spec.wf_linked _ _ Hwf) as Hl. rewrite Hblocks in *.
    now apply linked_snoc.
  - rewrite fmap_app. apply NoDup_app. split; [apply (Spec.wf_hashes _ _ Hwf)|].
    split; [|apply NoDup_singleton].
    intros h Hh Hin. apply list_elem_of_singleton in Hin. subst h. contradiction.
  - rewrite fmap_app. intros [Hin|Hin]%elem_of_app.
    + now apply (Spec.wf_ChainID _ _ Hwf).
    + apply list_elem_of_singleton in Hin. congruence.
  - apply Forall_app. split; [apply (Spec.wf_ranges _ _ Hwf)|].
    constructor; [exact Hrange | constructor].
Qed.

Lemma walk_back_nonneg {PubKey : Type} `{PubKeyOps PubKey} (pub : PubKey)
    (walk : list (Block.t PubKey)) (k : Z) :
  Spec.walk_back pub walk = Some k -> 0 <= k.
Proof.
  revert k. induction walk as [|b walk IH]; intros k; cbn; [discriminate|].
  destruct (Spec.appears pub b); [intros [= <-]; lia|].
  destruct (Spec.walk_back pub walk) as [j|]; cbn; [|discriminate].
  intros [= <-]. specialize (IH j eq_refl). lia.
Qed.

(** X12. After a successful [Append] on a well-formed chain (of a block
    with a new hash that hands out its transactions), the lazy
    interval of a key that appears in the block is 0, that of a key
    seen before is one more than it was, and a key never seen stays
    at -1. *)
Theorem Append_then_LazyInterval {PubKey : Type} `{PubKeyOps PubKey}
    (ChainID : list byte) (chain chain' : Chain.ChainT) (block : Block.t PubKey)
    (pub : PubKey) (fuel : nat) :
  Spec.well_formed ChainID chain ->
  Chain.Append chain (Chain.ObjBlock block) = Ret (None, chain') ->
  Block.Hash block ∉ Block.Hash <$> Chain.blocks chain ->
  Block.Hash block <> ChainID ->
  Block.Range block 0 (Block.Length block) <> None ->
  Chain.length chain + 1 < 2 ^ 64 ->
  (length (Chain.blocks chain) < fuel)%nat ->
  exists v,
    Chain.LazyInterval fuel chain pub = Ret v
    /\ Chain.LazyInterval fuel chain' pub
       = Ret (if Spec.appears pub block then 0
              else if v <? 0 then -1 else v + 1).
Proof.
  intros Hwf Happend Hfresh HID Hrange Hsmall Hfuel.
  apply Append_success_inv in Happend as (b & [= <-] & Hv & Hlast & ->).
  pose proof (well_formed_snoc ChainID chain block Hwf Hlast Hfresh HID Hrange Hsmall)
    as Hwf'.
  exists (Spec.LazyInterval chain pub). split.
  - apply (LazyInterval_of_well_formed ChainID); [exact Hwf | lia].
  - rewrite (LazyInterval_of_well_formed ChainID _ pub fuel Hwf')
      by (cbn; rewrite length_app; cbn; lia).
    f_equal. unfold Spec.LazyInterval. cbn [Chain.blocks].
    rewrite rev_unit. cbn [Spec.walk_back].
    destruct (Spec.appears pub block); [reflexivity|].
    destruct (Spec.walk_back pub (rev (Chain.blocks chain))) as [k|] eqn:Hk; cbn.
    + apply walk_back_nonneg in Hk.
      destruct (Z.ltb_spec k 0); lia.
    + reflexivity.
Qed.

Lemma chain1_wf : Spec.well_formed Sample.ChainID Sample.chain1.
Proof.
  split.
  - reflexivity.
  - discriminate.
  - reflexivity.
  - reflexivity.
  - apply (bool_decide_unpack _). vm_compute. exact I.
  - apply (bool_decide_unpack _). vm_compute. exact I.
  - repeat constructor; discriminate.
Qed.

Lemma chain2_wf : Spec.well_formed Sample.ChainID Sample.chain2.
Proof.
  split.
  - reflexivity.
  - discriminate.
  - reflexivity.
  - reflexivity.
  - apply (bool_decide_unpack _). vm_compute. exact I.
  - apply (bool_decide_unpack _). vm_compute. exact I.
  - repeat constructor; discriminate.
Qed.

Lemma Append_then_LazyInterval_witness :
  exists v,
    Chain.LazyInterval 2 Sample.chain1 "alice"%string = Ret v
    /\ Chain.LazyInterval 2 Sample.chain2 "alice"%string
       = Ret (if Spec.appears "alice"%string Sample.second then 0
              else if v <? 0 then -1 else v + 1).
Proof.
  apply (Append_then_LazyInterval Sample.ChainID Sample.chain1 Sample.chain2
           Sample.second "alice"%string 2).
  - exact chain1_wf.
  - reflexivity.
  - apply (bool_decide_unpack _). vm_compute. exact I.
  - discriminate.
  - discriminate.
  - reflexivity.
  - cbn. lia.
Defined.

Lemma walk_back_Some {PubKey : Type} `{PubKeyOps PubKey} (pub : PubKey)
    (walk : list (Block.t PubKey)) (k : Z) :
  Spec.walk_back pub walk = Some k ->
  exists w1 b w2,
    walk = w1 ++ b :: w2
    /\ Forall (fun c => Spec.appears pub c = false) w1
    /\ Spec.appears pub b = true
    /\ k = Z.of_nat (length w1).
Proof.
  revert k. induction walk as [|c walk IH]; intros k; cbn; [discriminate|].
  destruct (Spec.appears pub c) eqn:Hc.
  - intros [= <-]. exists [], c, walk. auto.
  - destruct (Spec.walk_back pub walk) as [j|]; cbn; [|discriminate].
    intros [= <-]. destruct (IH j eq_refl) as (w1 & b & w2 & -> & Hw1 & Hb & ->).
    exists (c :: w1), b, w2. split; [reflexivity|].
    split; [now constructor|]. split; [assumption|]. cbn [length]. lia.
Qed.

Lemma walk_back_None {PubKey : Type} `{PubKeyOps PubKey} (pub : PubKey)
    (walk : list (Block.t PubKey)) :
  Spec.walk_back pub walk = None ->
  Forall (fun c => Spec.appears pub c = false) walk.
Proof.
  induction walk as [|c walk IH]; cbn; [constructor|].
  destruct (Spec.appears pub c) eqn:Hc; [discriminate|].
  destruct (Spec.walk_back pub walk); cbn; [discriminate|].
  intros _. constructor; [assumption | now apply IH].
Qed.

(** X13. On a well-formed chain [LazyInterval] returns the number of
    blocks that come after the last block in which the key appears,
    and -1 when the key appears in no block: the result is never less
    than -1 and is less than the number of blocks. *)
Theorem LazyInterval_last_appearance {PubKey : Type} `{PubKeyOps PubKey}
    (ChainID : list byte) (chain : Chain.ChainT) (pub : PubKey) (fuel : nat) :
  Spec.well_formed ChainID chain ->
  (length (Chain.blocks chain) <= fuel)%nat ->
  exists v,
    Chain.LazyInterval fuel chain pub = Ret v
    /\ -1 <= v < Z.of_nat (length (Chain.blocks chain))
    /\ ((v = -1
         /\ Forall (fun c => Spec.appears pub c = false) (Chain.blocks chain))
        \/ exists pre b suf,
             Chain.blocks chain = pre ++ b :: suf
             /\ Spec.appears pub b = true
             /\ Forall (fun c => Spec.appears pub c = false) suf
             /\ v = Z.of_nat (length suf)).
Proof.
  intros Hwf Hfuel. exists (Spec.LazyInterval chain pub).
  split; [now apply (LazyInterval_of_well_formed ChainID)|].
  unfold Spec.LazyInterval.
  destruct (Spec.walk_back pub (rev (Chain.blocks chain))) as [k|] eqn:Hk; cbn.
  - apply walk_back_Some in Hk as (w1 & b & w2 & Hrev & Hw1 & Hb & ->).
    apply (f_equal (@rev _)) in Hrev.
    rewrite rev_involutive, rev_app_distr in Hrev. cbn [rev] in Hrev.
    rewrite <- app_assoc in Hrev. cbn [app] in Hrev.
    split.
    + rewrite Hrev, length_app. cbn [length]. rewrite !length_rev. lia.
    + right. exists (rev w2), b, (rev w1). split; [exact Hrev|].
      split; [exact Hb|]. split; [now apply Forall_rev | now rewrite length_rev].
  - pose proof (Spec.wf_genesis _ _ Hwf) as Hne.
    split.
    + destruct (Chain.blocks chain); [congruence|]. cbn [length]. lia.
    + left. split; [reflexivity|].
      apply walk_back_None in Hk. apply Forall_rev in Hk.
      now rewrite rev_involutive in Hk.
Qed.

Lemma LazyInterval_last_appearance_witness :
  exists v,
    Chain.LazyInterval 2 Sample.chain2 "alice"%string = Ret v
    /\ -1 <= v < Z.of_nat (length (Chain.blocks Sample.chain2))
    /\ ((v = -1
         /\ Forall (fun c => Spec.appears "alice"%string c = false)
              (Chain.blocks Sample.chain2))
        \/ exists pre b suf,
             Chain.blocks Sample.chain2 = pre ++ b :: suf
             /\ Spec.appears "alice"%string b = true
             /\ Forall (fun c => Spec.appears "alice"%string c = false) suf
             /\ v = Z.of_nat (length suf)).
Proof.
  apply (LazyInterval_last_appearance Sample.ChainID Sample.chain2 "alice"%string 2).
  - exact chain2_wf.
  - cbn. lia.
Defined.

(** X14. A tail block whose [Range] returns nil ends the walk at once:
    for a key that is not the validator of that block [LazyInterval]
    returns -1, whatever the blocks before it hold. *)
Theorem LazyInterval_nil_Range {PubKey : Type} `{PubKeyOps PubKey}
    (chain : Chain.ChainT) (pre : list (Block.t PubKey)) (tail : Block.t PubKey)
    (pub : PubKey) (fuel : nat) :
  Chain.blocks chain = pre ++ [tail] ->
  Chain.length chain = Z.of_nat (length (Chain.blocks chain)) ->
  Chain.length chain < 2 ^ 64 ->
  Forall (fun c => Block.Hash c <> Block.Hash tail) pre ->
  Equal pub (Block.Validator tail) = false ->
  Block.Range tail 0 (Block.Length tail) = None ->
  Chain.LazyInterval (S fuel) chain pub = Ret (-1).
Proof.
  intros Hblocks Hlen Hsmall Hpre Hv Hr. unfold Chain.LazyInterval.
  rewrite (LastHash_tail chain pre tail Hblocks Hlen Hsmall). cbn.
  replace (Chain.Find chain (Block.Hash tail)) with (Some tail).
  - now apply loop_nil_Range.
  - symmetry. apply find_first. exists pre, []. auto.
Qed.

Lemma LazyInterval_nil_Range_witness :
  Chain.LazyInterval 1 Sample.opaque_chain "alice"%string = Ret (-1).
Proof.
  apply (LazyInterval_nil_Range Sample.opaque_chain [Sample.genesis]
           Sample.opaque_block "alice"%string 0).
  - reflexivity.
  - reflexivity.
  - reflexivity.
  - repeat constructor. discriminate.
  - reflexivity.
  - reflexivity.
Defined.

(** X15. Within [0 <= x <= y <= z <= length] the ranges fit together:
    [Range(x, y)] has [y - x] blocks, [Range(x, y)] followed by
    [Range(y, z)] is [Range(x, z)], and [Range(0, length)] is the whole
    chain. *)
Theorem Range_adjacent {PubKey : Type} (chain : @Chain.ChainT PubKey) (x y z : Z) :
  Chain.length chain = Z.of_nat (length (Chain.blocks chain)) ->
  Chain.length chain < 2 ^ 64 ->
  0 <= x <= y ->
  y <= z <= Chain.length chain ->
  (exists a b,
      Chain.Range chain x y = Within a
      /\ Chain.Range chain y z = Within b
      /\ Chain.Range chain x z = Within (a ++ b)
      /\ Z.of_nat (length a) = y - x)
  /\ Chain.Range chain 0 (Chain.length chain) = Within (Chain.blocks chain).
Proof.
  intros Hlen Hsmall Hxy Hyz. unfold Chain.Range.
  rewrite !Uint64_small by lia. rewrite !slice_within by lia. split.
  - eexists _, _. split; [reflexivity|]. split; [reflexivity|]. split.
    + f_equal.
      replace (Z.to_nat y) with (Z.to_nat x + Z.to_nat (y - x))%nat by lia.
      rewrite <- drop_drop, take_take_drop. f_equal. lia.
    + rewrite length_take_le; [lia|]. rewrite length_drop. lia.
  - f_equal. rewrite Z.sub_0_r, Hlen, Nat2Z.id. cbn [Z.to_nat drop].
    now rewrite take_ge.
Qed.

Lemma Range_adjacent_witness :
  (exists a b,
      Chain.Range Sample.chain3 0 1 = Within a
      /\ Chain.Range Sample.chain3 1 3 = Within b
      /\ Chain.Range Sample.chain3 0 3 = Within (a ++ b)
      /\ Z.of_nat (length a) = 1 - 0)
  /\ Chain.Range Sample.chain3 0 (Chain.length Sample.chain3)
     = Within (Chain.blocks Sample.chain3).
Proof.
  apply (Range_adjacent Sample.chain3 0 1 3).
  - reflexivity.
  - reflexivity.
  - lia.
  - cbn. lia.
Defined.

(** X16. What [IsValid] accepts: a chain without blocks always, and
    otherwise, when [LastHash] returns [h], exactly the chains whose
    blocks are all valid and all have [h] as their [LastHash]; one
    invalid block makes it return false. *)
Theorem IsValid_accepts {PubKey : Type} (chain : @Chain.ChainT PubKey) :
  (Chain.blocks chain = [] -> Chain.IsValid chain = Ret true)
  /\ (forall h : list byte,
        Chain.LastHash chain = Ret h ->
        (Chain.IsValid chain = Ret true
         <-> Forall (fun b => Block.IsValid b = true /\ Block.LastHash b = h)
               (Chain.blocks chain))
        /\ (forall b, b ∈ Chain.blocks chain -> Block.IsValid b = false ->
                      Chain.IsValid chain = Ret false)).
Proof.
  split.
  - unfold Chain.IsValid. now intros ->.
  - intros h Hlast. rewrite (IsValid_tail chain h Hlast). split.
    + split.
      * intros [= Hall]. apply List.Forall_forall. intros b Hb.
        rewrite forallb_forall in Hall. specialize (Hall b Hb).
        apply andb_prop in Hall as [Hv Hh].
        split; [exact Hv | now apply bool_decide_eq_true_1 in Hh].
      * intros Hall. f_equal. apply forallb_forall. intros b Hb.
        rewrite List.Forall_forall in Hall. destruct (Hall b Hb) as [Hv Hh].
        rewrite Hv. unfold bytes_Equal. now rewrite bool_decide_eq_true_2.
    + intros b Hb Hv. f_equal. apply not_true_is_false. intros Hall.
      rewrite forallb_forall in Hall. apply list_elem_of_In in Hb.
      specialize (Hall b Hb). rewrite Hv in Hall. discriminate Hall.
Qed.

Lemma SelectLazy_range_returns {PubKey : Type} `{PubKeyOps PubKey}
    (fuel : nat) (chain : Chain.ChainT) (vs : list PubKey) :
  forall (finds : list PubKey) (diff : Z) (fs : list PubKey),
    Chain.SelectLazy_range fuel chain vs finds diff = Ret fs ->
    forall q, q ∈ vs -> exists w, Chain.LazyInterval fuel chain q = Ret w.
Proof.
  induction vs as [|p vs IH]; intros finds diff fs Hr q Hq.
  - now apply elem_of_nil in Hq.
  - cbn [Chain.SelectLazy_range] in Hr.
    destruct (Chain.LazyInterval fuel chain p) as [w| |] eqn:Hp; cbn in Hr;
      try discriminate Hr.
    apply elem_of_cons in Hq as [->|Hq]; [eauto|].
    destruct (BigInt.Cmp w diff >? 0); [now apply (IH _ _ _ Hr)|].
    destruct (BigInt.Cmp w diff =? 0); now apply (IH _ _ _ Hr).
Qed.

Lemma SelectLazy_none {PubKey : Type} `{PubKeyOps PubKey}
    (fuel : nat) (chain : Chain.ChainT) (level : PubKey -> Z) (vs : list PubKey) :
  (forall q, q ∈ vs -> Chain.LazyInterval fuel chain q = Ret (level q)) ->
  Spec.tied level (Spec.greatest level 0 vs) vs = [] ->
  Chain.SelectLazy fuel chain vs = Panic IndexOutOfRange.
Proof.
  intros Hlevels Hnil. unfold Chain.SelectLazy.
  rewrite (SelectLazy_range_levels fuel chain level) by assumption.
  rewrite Hnil. now case_bool_decide.
Qed.

(** X17. Whenever [SelectLazy] returns a key, the key is one of the
    candidates, its lazy interval is 0 or more, and no candidate has a
    greater one: a key that has never been seen is never selected. *)
Theorem SelectLazy_returns_laziest {PubKey : Type} `{PubKeyOps PubKey}
    (fuel : nat) (chain : Chain.ChainT) (validators : list PubKey) (pub : PubKey) :
  Chain.SelectLazy fuel chain validators = Ret pub ->
  pub ∈ validators
  /\ exists v,
       Chain.LazyInterval fuel chain pub = Ret v
       /\ 0 <= v
       /\ forall q, q ∈ validators ->
                    exists w, Chain.LazyInterval fuel chain q = Ret w /\ w <= v.
Proof.
  intros Hsel.
  set (level := fun q => match Chain.LazyInterval fuel chain q with
                         | Ret v => v
                         | _ => 0
                         end).
  assert (Hlevels : forall q, q ∈ validators ->
                              Chain.LazyInterval fuel chain q = Ret (level q)).
  { unfold Chain.SelectLazy in Hsel.
    destruct (Chain.SelectLazy_range fuel chain validators [] 0) as [fs| |] eqn:Hr;
      try discriminate Hsel.
    intros q Hq. destruct (SelectLazy_range_returns _ _ _ _ _ _ Hr q Hq) as [w Hw].
    unfold level. now rewrite Hw. }
  set (M := Spec.greatest level 0 validators).
  destruct (Spec.tied level M validators) as [|p0 tied0] eqn:Htied.
  { rewrite (SelectLazy_none fuel chain level validators Hlevels Htied) in Hsel.
    discriminate Hsel. }
  assert (Hp0 : p0 ∈ validators).
  { assert (Hin : In p0 (Spec.tied level M validators)) by (rewrite Htied; now left).
    apply filter_In in Hin as [Hin _]. now apply list_elem_of_In. }
  destruct (LazyInterval_LastHash _ _ _ _ (Hlevels p0 Hp0)) as [h Hlast].
  destruct (SelectLazy_tied fuel chain level validators h Hlevels Hlast)
    as (pub' & Hsel' & Hpub); [fold M; rewrite Htied; discriminate|].
  rewrite Hsel in Hsel'. injection Hsel' as <-.
  assert (Hin : In pub (Spec.tied level M validators)).
  { apply list_elem_of_lookup_2, list_elem_of_In in Hpub.
    eapply Permutation_in; [symmetry; apply (SliceStable_by_Address _) | exact Hpub]. }
  apply filter_In in Hin as [Hin HM]. apply Z.eqb_eq in HM.
  split; [now apply list_elem_of_In|].
  exists (level pub). split; [apply Hlevels; now apply list_elem_of_In|].
  split; [rewrite HM; apply greatest_floor|].
  intros q Hq. exists (level q). split; [now apply Hlevels|].
  rewrite HM. now apply greatest_upper.
Qed.

Lemma SelectLazy_returns_laziest_witness :
  "alice"%string ∈ ["carol"; "dave"; "alice"; "bob"]%string
  /\ exists v,
       Chain.LazyInterval 2 Sample.chain2 "alice"%string = Ret v
       /\ 0 <= v
       /\ forall q, q ∈ ["carol"; "dave"; "alice"; "bob"]%string ->
                    exists w, Chain.LazyInterval 2 Sample.chain2 q = Ret w /\ w <= v.
Proof.
  apply (SelectLazy_returns_laziest 2 Sample.chain2
           ["carol"; "dave"; "alice"; "bob"]%string "alice"%string).
  reflexivity.
Defined.

Lemma greatest_Permutation {PubKey : Type} (level : PubKey -> Z)
    (vs vs' : list PubKey) :
  Permutation vs vs' ->
  forall floor, Spec.greatest level floor vs = Spec.greatest level floor vs'.
Proof.
  unfold Spec.greatest.
  induction 1 as [|p vs vs' _ IH|p q vs|vs1 vs2 vs3 _ IH1 _ IH2]; intros floor; cbn.
  - reflexivity.
  - apply IH.
  - f_equal. lia.
  - now rewrite IH1.
Qed.

Lemma filter_Permutation_bool {A : Type} (P : A -> bool) (l l' : list A) :
  Permutation l l' -> Permutation (List.filter P l) (List.filter P l').
Proof.
  induction 1 as [|x l l' _ IH|x y l|l1 l2 l3 _ IH1 _ IH2]; cbn.
  - constructor.
  - destruct (P x); [now constructor | assumption].
  - destruct (P x), (P y); try reflexivity. apply perm_swap.
  - now rewrite IH1.
Qed.

Lemma filter_key_short {A K : Type} `{EqDecision K} (key : A -> K) (k : K)
    (l : list A) :
  NoDup (key <$> l) ->
  (length (List.filter (fun x => bool_decide (key x = k)) l) <= 1)%nat.
Proof.
  induction l as [|x l IH]; cbn; [lia|].
  intros [Hx Hl]%NoDup_cons. specialize (IH Hl).
  case_bool_decide as Hk; [|exact IH]. cbn [length].
  destruct (List.filter (fun x => bool_decide (key x = k)) l) as [|y ys] eqn:Hf;
    [cbn; lia|].
  exfalso. apply Hx.
  assert (Hy : In y (List.filter (fun x => bool_decide (key x = k)) l))
    by (rewrite Hf; now left).
  apply filter_In in Hy as [Hy Hyk]. apply bool_decide_eq_true_1 in Hyk.
  rewrite Hk, <- Hyk. apply list_elem_of_fmap_2. now apply list_elem_of_In.
Qed.

Lemma Permutation_short {A : Type} (l l' : list A) :
  Permutation l l' -> (length l <= 1)%nat -> l = l'.
Proof.
  intros Hperm Hlen. destruct l as [|x [|y l]]; cbn in Hlen; try lia.
  - now apply Permutation_nil in Hperm.
  - now apply Permutation_length_1_inv in Hperm.
Qed.

Lemma NoDup_fmap_filter {A K : Type} (key : A -> K) (P : A -> bool) (l : list A) :
  NoDup (key <$> l) -> NoDup (key <$> List.filter P l).
Proof.
  induction l as [|x l IH]; cbn; [trivial|].
  intros [Hx Hl]%NoDup_cons. destruct (P x); [|now apply IH].
  cbn. apply NoDup_cons. split; [|now apply IH].
  intros Hin. apply Hx. apply list_elem_of_fmap in Hin as (y & -> & Hy).
  apply list_elem_of_fmap_2. apply list_elem_of_In in Hy.
  apply filter_In in Hy as [Hy _]. now apply list_elem_of_In.
Qed.

(** X18. With the lazy intervals of the candidates known and their
    addresses pairwise different, [SelectLazy] does not depend on the
    order of the validator list. *)
Theorem SelectLazy_any_order {PubKey : Type} `{PubKeyOps PubKey}
    (fuel : nat) (chain : Chain.ChainT) (validators validators' : list PubKey)
    (level : PubKey -> Z) :
  (forall q, q ∈ validators -> Chain.LazyInterval fuel chain q = Ret (level q)) ->
  NoDup (Address <$> validators) ->
  Permutation validators validators' ->
  Chain.SelectLazy fuel chain validators' = Chain.SelectLazy fuel chain validators.
Proof.
  intros Hlevels Hnodup Hperm.
  assert (Hlevels' : forall q, q ∈ validators' ->
                               Chain.LazyInterval fuel chain q = Ret (level q)).
  { intros q Hq. apply Hlevels. now rewrite Hperm. }
  pose proof (greatest_Permutation level _ _ Hperm 0) as HM.
  set (M := Spec.greatest level 0 validators) in *.
  pose proof (filter_Permutation_bool (fun q => level q =? M) _ _ Hperm) as Htied.
  fold (Spec.tied level M validators) in Htied.
  fold (Spec.tied level M validators') in Htied.
  destruct (Spec.tied level M validators) as [|p0 tied0] eqn:Ht.
  { apply Permutation_nil in Htied.
    rewrite (SelectLazy_none fuel chain level validators Hlevels Ht).
    apply (SelectLazy_none fuel chain level validators' Hlevels').
    now rewrite <- HM. }
  rewrite <- Ht in *.
  assert (Hp0 : p0 ∈ validators).
  { assert (Hin : In p0 (Spec.tied level M validators)) by (rewrite Ht; now left).
    apply filter_In in Hin as [Hin _]. now apply list_elem_of_In. }
  destruct (LazyInterval_LastHash _ _ _ _ (Hlevels p0 Hp0)) as [h Hlast].
  destruct (SelectLazy_tied fuel chain level validators h Hlevels Hlast)
    as (pub & Hsel & Hpub); [fold M; rewrite Ht; discriminate|].
  destruct (SelectLazy_tied fuel chain level validators' h Hlevels' Hlast)
    as (pub' & Hsel' & Hpub').
  { rewrite <- HM. intros Hnil. rewrite Hnil in Htied.
    symmetry in Htied. apply Permutation_nil in Htied. rewrite Ht in Htied.
    discriminate Htied. }
  rewrite <- HM in Hpub'. fold M in Hpub, Hpub'.
  rewrite Hsel, Hsel'. f_equal.
  assert (Hsame : SliceStable Chain.less (Spec.tied level M validators')
                  = SliceStable Chain.less (Spec.tied level M validators)).
  { apply sorted_by_Address_unique.
    destruct (SliceStable_by_Address (Spec.tied level M validators'))
      as (Hp' & Hs' & Hst').
    split; [now rewrite Htied|]. split; [exact Hs'|].
    intros a. rewrite Hst'. symmetry. apply Permutation_short.
    - now apply filter_Permutation_bool.
    - apply (filter_key_short Address a). now apply NoDup_fmap_filter. }
  rewrite Hsame, <- (Permutation_length Htied) in Hpub'.
  congruence.
Qed.

Lemma SelectLazy_any_order_witness :
  Chain.SelectLazy 3 Sample.chain3 ["alice"; "carol"; "bob"]%string
  = Chain.SelectLazy 3 Sample.chain3 Sample.candidates.
Proof.
  apply (SelectLazy_any_order 3 Sample.chain3 Sample.candidates
           ["alice"; "carol"; "bob"]%string Sample.in_tail).
  - intros q Hq. repeat (apply elem_of_cons in Hq as [->|Hq]; [reflexivity|]).
    now apply elem_of_nil in Hq.
  - apply (bool_decide_unpack _). vm_compute. exact I.
  - unfold Sample.candidates.
    apply (perm_trans (l' := ["carol"; "alice"; "bob"]%string)).
    + apply perm_skip, perm_swap.
    + apply perm_swap.
Defined.

(** ** Node *)

Section NodeMore.

Import Node.

Variables (ConnSize MappSize RetrySize : Z) (IsNode IsClient : byte).

#[local] Abbreviation step' := (Node.step ConnSize MappSize RetrySize IsNode IsClient).
#[local] Abbreviation run' := (Node.run ConnSize MappSize RetrySize IsNode IsClient).

Implicit Types (w : World) (n : NodeT) (l : label) (m : Message) (conn : Conn).

Lemma reading_at w conn (r : reader) :
  readers w !! conn = Some r -> at_point r = AtRead -> counter r <> RetrySize ->
  Node.reading RetrySize w conn = Some r.
Proof.
  intros Hr Hp Hc. unfold Node.reading. rewrite Hr, Hp.
  destruct (Z.eqb_spec (counter r) RetrySize); [contradiction | reflexivity].
Qed.

Lemma first_key_after (first : string) n (hash : string) :
  Node.first_key MappSize hash (Node.setMapping MappSize first n hash) = true.
Proof.
  unfold Node.first_key. destruct (_ >? _); [|reflexivity].
  apply bool_decide_eq_true_2. cbn. rewrite lookup_insert_eq. eauto.
Qed.

(** The steps of a reader, one lemma for each branch. *)
Lemma run_cons l (ls : list label) w (w1 : World) :
  step' l w = Some w1 -> run' (l :: ls) w = run' ls w1.
Proof. intros Hstep. cbn [Node.run]. now rewrite Hstep. Qed.

Lemma step_Recv_new w conn (r : reader) m :
  Node.reading RetrySize w conn = Some r ->
  inMapping (node w) (Hash m) = false ->
  step' (Recv conn m) w
  = Some (Node.with_reader w conn {| counter := counter r; at_point := AtSetMapping m |}).
Proof. intros Hr Hnew. cbn [Node.step]. rewrite Hr. cbn. now rewrite Hnew. Qed.

Lemma step_Recv_seen w conn (r : reader) m :
  Node.reading RetrySize w conn = Some r ->
  inMapping (node w) (Hash m) = true ->
  step' (Recv conn m) w = Some w.
Proof. intros Hr Hseen. cbn [Node.step]. rewrite Hr. cbn. now rewrite Hseen. Qed.

Lemma step_RecvNil w conn (r : reader) :
  Node.reading RetrySize w conn = Some r ->
  step' (RecvNil conn) w
  = Some (Node.with_reader w conn {| counter := counter r + 1; at_point := AtRead |}).
Proof. intros Hr. cbn [Node.step]. now rewrite Hr. Qed.

Lemma step_SetMapping w conn (r : reader) m (first : string) :
  readers w !! conn = Some r ->
  at_point r = AtSetMapping m ->
  Node.first_key MappSize first (node w) = true ->
  step' (SetMapping conn first) w
  = Some (Node.with_reader
            (Node.with_node w (Node.setMapping MappSize first (node w) (Hash m)))
            conn {| counter := counter r; at_point := AtHandleFunc m |}).
Proof.
  intros Hr Hp Hfirst. cbn [Node.step]. rewrite Hr. cbn. now rewrite Hp, Hfirst.
Qed.

Lemma step_RunHandleFunc_found w conn (r : reader) m (f : HandleFunc) :
  readers w !! conn = Some r ->
  at_point r = AtHandleFunc m ->
  Node.getFunction (node w) (Head m) = Some f ->
  step' (RunHandleFunc conn) w
  = Some {| node := node w;
            readers := <[conn := {| counter := 0; at_point := AtRead |}]> (readers w);
            checked := checked w;
            calls := (f, conn, m) :: calls w;
            closed := closed w |}.
Proof. intros Hr Hp Hf. cbn [Node.step]. rewrite Hr. cbn. now rewrite Hp, Hf. Qed.


Lemma step_Exit w conn (r : reader) :
  readers w !! conn = Some r ->
  at_point r = AtRead ->
  counter r = RetrySize ->
  step' (Exit conn) w
  = Some {| node := Node.delConnection (node w) conn;
            readers := delete conn (readers w);
            checked := checked w;
            calls := calls w;
            closed := {[conn]} ∪ closed w |}.
Proof.
  intros Hr Hp Hc. cbn [Node.step]. rewrite Hr. cbn. rewrite Hp, Hc, Z.eqb_refl.
  reflexivity.
Qed.

(** X19. A reader that receives a message new to the node and goes
    on to [setMapping] and [handleFunc] with no step of another
    goroutine in between marks the hash seen and calls the handler
    registered last for the head, with this connection and message;
    its failure counter is reset to 0, and the next copy it receives
    is dropped. *)
Theorem first_copy_dispatched w0 w conn (r : reader) m (f : HandleFunc)
    (first : string) :
  step' (CallHandle (Head m) f) w0 = Some w ->
  readers w !! conn = Some r ->
  at_point r = AtRead ->
  counter r <> RetrySize ->
  RetrySize <> 0 ->
  inMapping (node w) (Hash m) = false ->
  Node.first_key MappSize first (node w) = true ->
  exists w',
    run' [Recv conn m; SetMapping conn first; RunHandleFunc conn; Recv conn m] w
    = Some w'
    /\ calls w' = (f, conn, m) :: calls w
    /\ inMapping (node w') (Hash m) = true
    /\ readers w' !! conn = Some {| counter := 0; at_point := AtRead |}.
Proof.
  intros Hhandle Hr Hp Hc HR Hnew Hfirst.
  assert (Hf : Node.getFunction (node w) (Head m) = Some f).
  { cbn in Hhandle. injection Hhandle as <-. cbn. apply lookup_insert_eq. }
  erewrite run_cons; [|apply (step_Recv_new w conn r m); [now apply reading_at | exact Hnew]].
  erewrite run_cons;
    [|eapply step_SetMapping; [apply lookup_insert_eq | reflexivity | exact Hfirst]].
  erewrite run_cons;
    [|eapply step_RunHandleFunc_found; [apply lookup_insert_eq | reflexivity | exact Hf]].
  erewrite run_cons;
    [|eapply step_Recv_seen; [|apply setMapping_in];
      apply reading_at with (r := {| counter := 0; at_point := AtRead |});
      [apply lookup_insert_eq | reflexivity | cbn; congruence]].
  eexists. split; [reflexivity|]. cbn.
  split; [reflexivity|]. split; [apply setMapping_in | apply lookup_insert_eq].
Qed.

Lemma run_app (ls1 ls2 : list label) w :
  run' (ls1 ++ ls2) w = w1 ← run' ls1 w; run' ls2 w1.
Proof.
  revert w. induction ls1 as [|l ls1 IH]; intros w; cbn; [reflexivity|].
  destruct (step' l w) as [w1|]; cbn; [apply IH | reflexivity].
Qed.

Lemma run_RecvNil (k : nat) conn :
  forall w (c : Z),
    readers w !! conn = Some {| counter := c; at_point := AtRead |} ->
    c + Z.of_nat k <= RetrySize ->
    exists w',
      run' (replicate k (RecvNil conn)) w = Some w'
      /\ readers w' !! conn = Some {| counter := c + Z.of_nat k; at_point := AtRead |}
      /\ node w' = node w /\ calls w' = calls w /\ closed w' = closed w.
Proof.
  induction k as [|k IH]; intros w c Hr Hc.
  - exists w. rewrite Z.add_0_r. auto.
  - cbn [replicate].
    erewrite run_cons;
      [|apply (step_RecvNil w conn {| counter := c; at_point := AtRead |});
        apply reading_at; [exact Hr | reflexivity | cbn; lia]].
    destruct (IH (Node.with_reader w conn {| counter := c + 1; at_point := AtRead |})
                (c + 1)) as (w' & Hrun & Hr' & Hn & Hcalls & Hclosed).
    + apply lookup_insert_eq.
    + lia.
    + exists w'. split; [exact Hrun|].
      replace (c + Z.of_nat (S k)) with (c + 1 + Z.of_nat k) by lia. auto.
Qed.

(** X20. A reader gives up after [RetrySize] failures in a row: when
    the reads that remain up to [RetrySize] all fail, the loop ends,
    the connection is deleted from the connection set and closed, and
    no handler has been invoked meanwhile. *)
Theorem retries_exhausted w conn (c : Z) :
  readers w !! conn = Some {| counter := c; at_point := AtRead |} ->
  c <= RetrySize ->
  exists w',
    run' (replicate (Z.to_nat (RetrySize - c)) (RecvNil conn) ++ [Exit conn]) w
    = Some w'
    /\ readers w' !! conn = None
    /\ connections (node w') !! conn = None
    /\ conn ∈ closed w'
    /\ calls w' = calls w.
Proof.
  intros Hr Hc.
  destruct (run_RecvNil (Z.to_nat (RetrySize - c)) conn w c Hr ltac:(lia))
    as (w1 & Hrun & Hr1 & Hn & Hcalls & Hclosed).
  rewrite run_app, Hrun. cbn [mbind option_bind].
  erewrite run_cons; [|eapply step_Exit; [exact Hr1 | reflexivity | cbn; lia]].
  eexists. split; [reflexivity|]. cbn.
  split; [apply lookup_delete_eq|]. split; [apply lookup_delete_eq|].
  split; [apply elem_of_union; left; now apply elem_of_singleton | exact Hcalls].
Qed.


(** X22. With more than [ConnSize] connections the node takes no new
    one: an inbound connection is closed at once, without a role byte
    read, a reader started or the connection set changed, and
    [Connect] returns without registering anything. *)
Theorem refused_above_ConnSize w conn :
  ConnSize < Z.of_nat (size (connections (node w))) ->
  conn ∉ checked w ->
  exists w1,
    step' (AcceptCheck conn) w = Some w1
    /\ node w1 = node w
    /\ readers w1 = readers w
    /\ conn ∈ closed w1
    /\ (forall whoIs, step' (AcceptRole conn whoIs) w1 = None)
    /\ step' (ConnectCheck conn) w = Some w
    /\ step' (ConnectSet conn) w = None.
Proof.
  intros Hfull Hconn. cbn [Node.step]. unfold Node.hasMaxConnSize.
  destruct (Z.gtb_spec (Z.of_nat (size (connections (node w)))) ConnSize); [|lia].
  eexists. split; [reflexivity|]. cbn.
  rewrite bool_decide_eq_false_2 by assumption.
  repeat split; try reflexivity. set_solver.
Qed.

(** X23. While admissions are serial (no connection is checked while
    another waits between its check and [setConnection]), the
    connection set never holds more than [ConnSize + 1] connections. *)
Theorem serial_admissions_bounded (ls : list label) :
  forall w w',
    Z.of_nat (size (connections (node w))) + Z.of_nat (size (checked w))
    <= ConnSize + 1 ->
    Notions.serial ConnSize MappSize RetrySize IsNode IsClient ls w ->
    run' ls w = Some w' ->
    Z.of_nat (size (connections (node w'))) <= ConnSize + 1.
Proof.
  induction ls as [|l ls IH]; intros w w' Hinv Hserial Hrun.
  - cbn in Hrun. injection Hrun as <-. lia.
  - cbn [Node.run] in Hrun. cbn [Notions.serial] in Hserial.
    destruct Hserial as [Hadm Hserial].
    destruct (step' l w) as [w1|] eqn:Hstep; [|discriminate Hrun].
    cbn [mbind option_bind] in Hrun. apply (IH w1 w'); [|exact Hserial | exact Hrun].
    clear IH Hserial Hrun.
    assert (Hins : forall c : Conn,
               (size (<[c := true]> (connections (node w)))
                <= S (size (connections (node w))))%nat).
    { intros c. rewrite map_size_insert. destruct (_ !! c); cbn; lia. }
    assert (Hdel : forall c : Conn,
               (size (delete c (connections (node w)))
                <= size (connections (node w)))%nat).
    { intros c. rewrite map_size_delete. destruct (_ !! c); cbn; lia. }
    assert (Hunc : forall c : Conn, c ∈ checked w ->
               S (size (checked w ∖ {[c]})) = size (checked w)).
    { intros c Hc. rewrite size_difference by set_solver. rewrite size_singleton.
      assert (size (checked w) <> 0%nat) by (apply size_non_empty_iff; set_solver).
      lia. }
    destruct l; cbn [Node.step] in Hstep; unfold Node.hasMaxConnSize in *;
      cbn [Notions.admission] in Hadm.
    + destruct (Z.gtb_spec (Z.of_nat (size (connections (node w)))) ConnSize);
        injection Hstep as <-; cbn; [lia|].
      rewrite (Hadm eq_refl), union_empty_r_L, size_singleton.
      rewrite (Hadm eq_refl), size_empty in Hinv. lia.
    + case_bool_decide as Hc; [|discriminate Hstep]. specialize (Hunc conn Hc).
      repeat case_bool_decide; injection Hstep as <-; cbn;
        try (specialize (Hins conn)); lia.
    + destruct (Z.gtb_spec (Z.of_nat (size (connections (node w)))) ConnSize);
        injection Hstep as <-; cbn; [lia|].
      rewrite (Hadm eq_refl), union_empty_r_L, size_singleton.
      rewrite (Hadm eq_refl), size_empty in Hinv. lia.
    + case_bool_decide as Hc; [|discriminate Hstep]. specialize (Hunc conn Hc).
      injection Hstep as <-; cbn. specialize (Hins conn). lia.
    + injection Hstep as <-. cbn. specialize (Hdel conn). lia.
    + injection Hstep as <-. cbn. lia.
    + destruct (Node.first_key MappSize first (node w)); [|discriminate Hstep].
      injection Hstep as <-. cbn. lia.
    + destruct (Node.reading RetrySize w conn); [|discriminate Hstep].
      injection Hstep as <-. cbn. lia.
    + destruct (Node.reading RetrySize w conn); [|discriminate Hstep].
      cbn in Hstep. destruct (inMapping (node w) (Hash msg));
        injection Hstep as <-; cbn; lia.
    + destruct (readers w !! conn) as [r|]; [|discriminate Hstep]. cbn in Hstep.
      destruct (at_point r); try discriminate Hstep.
      destruct (Node.first_key MappSize first (node w)); [|discriminate Hstep].
      injection Hstep as <-. cbn. lia.
    + destruct (readers w !! conn) as [r|]; [|discriminate Hstep]. cbn in Hstep.
      destruct (at_point r); try discriminate Hstep.
      destruct (Node.getFunction (node w) (Head msg));
        injection Hstep as <-; cbn; lia.
    + destruct (readers w !! conn) as [r|]; [|discriminate Hstep]. cbn in Hstep.
      destruct (at_point r); try discriminate Hstep.
      destruct (counter r =? RetrySize); [|discriminate Hstep].
      injection Hstep as <-. cbn. specialize (Hdel conn). lia.
Qed.

(** X24. The check of [hasMaxConnSize] and [setConnection] are two
    critical sections: two [Connect] calls that both pass the check on
    a node with [ConnSize] connections both register, and the set holds
    [ConnSize + 2]. *)
Theorem Connect_race w (a b : Conn) :
  Z.of_nat (size (connections (node w))) = ConnSize ->
  connections (node w) !! a = None ->
  connections (node w) !! b = None ->
  a <> b ->
  exists w',
    run' [ConnectCheck a; ConnectCheck b; ConnectSet a; ConnectSet b] w = Some w'
    /\ connections (node w') = <[b := true]> (<[a := true]> (connections (node w)))
    /\ Z.of_nat (size (connections (node w'))) = ConnSize + 2.
Proof.
  intros Hsize Ha Hb Hab. cbn [Node.run Node.step]. unfold Node.hasMaxConnSize.
  destruct (Z.gtb_spec (Z.of_nat (size (connections (node w)))) ConnSize); [lia|].
  cbn. destruct (Z.gtb_spec (Z.of_nat (size (connections (node w)))) ConnSize); [lia|].
  cbn. rewrite bool_decide_eq_true_2 by set_solver. cbn.
  rewrite bool_decide_eq_true_2 by set_solver. cbn.
  eexists. split; [reflexivity|]. cbn. split; [reflexivity|].
  rewrite !map_size_insert_None; [lia | assumption |].
  now rewrite lookup_insert_ne.
Qed.

(** X25. Deduplication is approximate: once the seen-set is over
    [MappSize], marking another message may evict the hash of a
    message already seen, and a copy of that message is then
    dispatched to its handler again. *)
Theorem evicted_is_handled_again w conn (r : reader) m (m' : Message)
    (f : HandleFunc) :
  readers w !! conn = Some r ->
  at_point r = AtRead ->
  counter r <> RetrySize ->
  inMapping (node w) (Hash m) = true ->
  Hash m' <> Hash m ->
  MappSize < Z.of_nat (size (mapping (node w))) ->
  Node.getFunction (node w) (Head m) = Some f ->
  exists w',
    run' [CallBroadcast m' (Hash m); Recv conn m;
          SetMapping conn (Hash m'); RunHandleFunc conn] w
    = Some w'
    /\ calls w' = (f, conn, m) :: calls w.
Proof.
  intros Hr Hp Hc Hseen Hne Hfull Hf.
  assert (Hfirst : Node.first_key MappSize (Hash m) (node w) = true).
  { unfold Node.first_key. destruct (_ >? _); [exact Hseen | reflexivity]. }
  assert (Hgone : inMapping (Node.setMapping MappSize (Hash m) (node w) (Hash m'))
                    (Hash m) = false).
  { unfold inMapping, Node.setMapping. cbn.
    destruct (Z.gtb_spec (Z.of_nat (size (mapping (node w)))) MappSize); [|lia].
    apply bool_decide_eq_false_2. rewrite lookup_insert_ne by assumption.
    rewrite lookup_delete_eq. now intros []. }
  erewrite run_cons; [|cbn [Node.step]; rewrite Hfirst; reflexivity].
  erewrite run_cons;
    [|apply (step_Recv_new _ conn r m); [now apply reading_at | exact Hgone]].
  erewrite run_cons;
    [|eapply step_SetMapping; [apply lookup_insert_eq | reflexivity |];
      apply first_key_after].
  erewrite run_cons;
    [|eapply step_RunHandleFunc_found; [apply lookup_insert_eq | reflexivity | exact Hf]].
  eexists. split; reflexivity.
Qed.

(** X26. The role byte decides what [Listen] does with a connection
    that passed the check. A client ([IsClient]) gets a reader but is
    not put into the connection set; any byte that is neither [IsNode]
    nor [IsClient] closes the connection without a reader. *)
Theorem role_of_connection w conn (whoIs : byte) :
  conn ∈ checked w ->
  whoIs <> IsNode ->
  exists w',
    step' (AcceptRole conn whoIs) w = Some w'
    /\ connections (node w') = connections (node w)
    /\ (whoIs = IsClient ->
        readers w' !! conn = Some {| counter := 0; at_point := AtRead |}
        /\ closed w' = closed w)
    /\ (whoIs <> IsClient ->
        readers w' = readers w /\ conn ∈ closed w').
Proof.
  intros Hc Hrole. cbn [Node.step].
  rewrite bool_decide_eq_true_2 by assumption.
  rewrite bool_decide_eq_false_2 by assumption.
  case_bool_decide as Hclient; eexists; (split; [reflexivity|]); cbn;
    (split; [reflexivity|]); split; intros Hw; try contradiction.
  - split; [apply lookup_insert_eq | reflexivity].
  - split; [reflexivity|]. apply elem_of_union. left. now apply elem_of_singleton.
Qed.

(** X27. [setMapping] forgets at most one hash: while the seen-set is
    not over [MappSize] every hash seen stays seen, and over
    [MappSize] every hash but the evicted one does; the set shrinks by
    no more than that, and the hash marked is seen. *)
Theorem setMapping_keeps (first : string) n (hash : string) :
  (forall k : string,
      inMapping n k = true ->
      Z.of_nat (size (mapping n)) <= MappSize \/ k <> first ->
      inMapping (Node.setMapping MappSize first n hash) k = true)
  /\ inMapping (Node.setMapping MappSize first n hash) hash = true
  /\ (forall k : string,
        inMapping (Node.setMapping MappSize first n hash) k = true ->
        k = hash \/ inMapping n k = true).
Proof.
  unfold inMapping, Node.setMapping. cbn. split; [|split].
  - intros k Hk Hkeep. apply bool_decide_eq_true_1 in Hk.
    apply bool_decide_eq_true_2. rewrite lookup_insert. case_decide; [eauto|].
    destruct (Z.gtb_spec (Z.of_nat (size (mapping n))) MappSize); [|exact Hk].
    destruct Hkeep as [Hroom|Hother]; [lia|]. now rewrite lookup_delete_ne.
  - apply bool_decide_eq_true_2. rewrite lookup_insert_eq. eauto.
  - intros k Hk. apply bool_decide_eq_true_1 in Hk.
    rewrite lookup_insert in Hk. case_decide as Hkh; [now left|]. right.
    apply bool_decide_eq_true_2.
    destruct (_ >? _); [|exact Hk].
    rewrite lookup_delete in Hk. case_decide; [now destruct Hk | exact Hk].
Qed.

(** X28. [Connect] followed by [Disconnect] of the connection leaves the
    connection set as it was and the connection closed; the reader
    started by [Connect] is not stopped by [Disconnect]. *)
Theorem Connect_then_Disconnect w conn :
  Z.of_nat (size (connections (node w))) <= ConnSize ->
  connections (node w) !! conn = None ->
  exists w',
    run' [ConnectCheck conn; ConnectSet conn; CallDisconnect conn] w = Some w'
    /\ connections (node w') = connections (node w)
    /\ conn ∈ closed w'
    /\ readers w' !! conn = Some {| counter := 0; at_point := AtRead |}.
Proof.
  intros Hsize Hfresh. cbn [Node.run Node.step]. unfold Node.hasMaxConnSize.
  destruct (Z.gtb_spec (Z.of_nat (size (connections (node w)))) ConnSize); [lia|].
  cbn. rewrite bool_decide_eq_true_2 by set_solver. cbn.
  eexists. split; [reflexivity|]. cbn.
  split; [now rewrite delete_insert_eq, delete_id|].
  split; [apply elem_of_union; left; now apply elem_of_singleton|].
  apply lookup_insert_eq.
Qed.

(** X29. [inMapping] and [setMapping] are two critical sections: two
    readers that both receive a message new to the node before either
    marks it seen both call the handler for it. *)
Theorem two_readers_dispatch_twice w (a b : Conn) (ra rb : reader) m
    (f : HandleFunc) (first first' : string) :
  a <> b ->
  readers w !! a = Some ra -> at_point ra = AtRead -> counter ra <> RetrySize ->
  readers w !! b = Some rb -> at_point rb = AtRead -> counter rb <> RetrySize ->
  inMapping (node w) (Hash m) = false ->
  Node.getFunction (node w) (Head m) = Some f ->
  Node.first_key MappSize first (node w) = true ->
  Node.first_key MappSize first' (Node.setMapping MappSize first (node w) (Hash m))
  = true ->
  exists w',
    run' [Recv a m; Recv b m; SetMapping a first; SetMapping b first';
          RunHandleFunc a; RunHandleFunc b] w = Some w'
    /\ calls w' = (f, b, m) :: (f, a, m) :: calls w.
Proof.
  intros Hab Ha Hpa Hca Hb Hpb Hcb Hnew Hf Hfirst Hfirst'.
  assert (Hba : b <> a) by congruence.
  erewrite run_cons; [|apply (step_Recv_new w a ra m); [now apply reading_at | exact Hnew]].
  erewrite run_cons;
    [|apply (step_Recv_new _ b rb m); [|exact Hnew];
      apply reading_at; [|assumption..];
      cbn [readers Node.with_reader]; rewrite lookup_insert_ne by assumption; exact Hb].
  erewrite run_cons;
    [|eapply step_SetMapping;
      [cbn [readers Node.with_reader]; rewrite lookup_insert_ne by assumption;
       apply lookup_insert_eq
      |reflexivity | exact Hfirst]].
  erewrite run_cons;
    [|eapply step_SetMapping;
      [cbn [readers Node.with_reader Node.with_node];
       rewrite lookup_insert_ne by assumption; apply lookup_insert_eq
      |reflexivity | exact Hfirst']].
  erewrite run_cons;
    [|eapply step_RunHandleFunc_found;
      [cbn [readers Node.with_reader Node.with_node];
       rewrite lookup_insert_ne by assumption; apply lookup_insert_eq
      |reflexivity | exact Hf]].
  erewrite run_cons;
    [|eapply step_RunHandleFunc_found;
      [cbn [readers Node.with_reader Node.with_node];
       rewrite lookup_insert_ne by assumption; apply lookup_insert_eq
      |reflexivity | exact Hf]].
  eexists. split; reflexivity.
Qed.

End NodeMore.

Lemma first_copy_dispatched_witness :
  exists w',
    Sample.run [Node.Recv 1%nat Sample.gossip; Node.SetMapping 1%nat "";
                Node.RunHandleFunc 1%nat; Node.Recv 1%nat Sample.gossip]
      Sample.peer_with_handler = Some w'
    /\ Node.calls w' = (5%nat, 1%nat, Sample.gossip) :: Node.calls Sample.peer_with_handler
    /\ Node.inMapping (Node.node w') (Node.Hash Sample.gossip) = true
    /\ Node.readers w' !! 1%nat
       = Some {| Node.counter := 0; Node.at_point := Node.AtRead |}.
Proof.
  apply (first_copy_dispatched Sample.ConnSize Sample.MappSize Sample.RetrySize
           Sample.IsNode Sample.IsClient Sample.peer Sample.peer_with_handler 1%nat
           {| Node.counter := 0; Node.at_point := Node.AtRead |} Sample.gossip 5%nat "").
  - vm_compute. reflexivity.
  - vm_compute. reflexivity.
  - reflexivity.
  - vm_compute. discriminate.
  - vm_compute. discriminate.
  - vm_compute. reflexivity.
  - vm_compute. reflexivity.
Defined.

Lemma retries_exhausted_witness :
  exists w',
    Sample.run (replicate (Z.to_nat (Sample.RetrySize - 0)) (Node.RecvNil 1%nat)
                ++ [Node.Exit 1%nat]) Sample.peer = Some w'
    /\ Node.readers w' !! 1%nat = None
    /\ Node.connections (Node.node w') !! 1%nat = None
    /\ 1%nat ∈ Node.closed w'
    /\ Node.calls w' = Node.calls Sample.peer.
Proof.
  apply (retries_exhausted Sample.ConnSize Sample.MappSize Sample.RetrySize
           Sample.IsNode Sample.IsClient Sample.peer 1%nat 0).
  - vm_compute. reflexivity.
  - vm_compute. discriminate.
Defined.


Lemma refused_above_ConnSize_witness :
  exists w1,
    Sample.step (Node.AcceptCheck 4%nat) Sample.three_peers = Some w1
    /\ Node.node w1 = Node.node Sample.three_peers
    /\ Node.readers w1 = Node.readers Sample.three_peers
    /\ 4%nat ∈ Node.closed w1
    /\ (forall whoIs, Sample.step (Node.AcceptRole 4%nat whoIs) w1 = None)
    /\ Sample.step (Node.ConnectCheck 4%nat) Sample.three_peers = Some Sample.three_peers
    /\ Sample.step (Node.ConnectSet 4%nat) Sample.three_peers = None.
Proof.
  apply (refused_above_ConnSize Sample.ConnSize Sample.MappSize Sample.RetrySize
           Sample.IsNode Sample.IsClient Sample.three_peers 4%nat).
  - vm_compute. reflexivity.
  - apply (bool_decide_unpack _). vm_compute. exact I.
Defined.

Lemma serial_admissions_bounded_witness :
  Z.of_nat (size (Node.connections (Node.node Sample.three_peers)))
  <= Sample.ConnSize + 1.
Proof.
  apply (serial_admissions_bounded Sample.ConnSize Sample.MappSize Sample.RetrySize
           Sample.IsNode Sample.IsClient Sample.accept_three Node.NewWorld
           Sample.three_peers).
  - vm_compute. discriminate.
  - vm_compute. repeat split; intros Hadm; try discriminate Hadm; reflexivity.
  - vm_compute. reflexivity.
Defined.

Lemma Connect_race_witness :
  exists w',
    Sample.run [Node.ConnectCheck 3%nat; Node.ConnectCheck 4%nat;
                Node.ConnectSet 3%nat; Node.ConnectSet 4%nat] Sample.two_peers = Some w'
    /\ Node.connections (Node.node w')
       = <[4%nat := true]>
           (<[3%nat := true]> (Node.connections (Node.node Sample.two_peers)))
    /\ Z.of_nat (size (Node.connections (Node.node w'))) = Sample.ConnSize + 2.
Proof.
  apply (Connect_race Sample.ConnSize Sample.MappSize Sample.RetrySize
           Sample.IsNode Sample.IsClient Sample.two_peers 3%nat 4%nat).
  - vm_compute. reflexivity.
  - vm_compute. reflexivity.
  - vm_compute. reflexivity.
  - discriminate.
Defined.

Lemma evicted_is_handled_again_witness :
  exists w',
    Sample.run [Node.CallBroadcast (Sample.message 7 "z") "a";
                Node.Recv 1%nat (Sample.message 7 "a");
                Node.SetMapping 1%nat "z"; Node.RunHandleFunc 1%nat] Sample.crowded
    = Some w'
    /\ Node.calls w'
       = (5%nat, 1%nat, Sample.message 7 "a") :: Node.calls Sample.crowded.
Proof.
  apply (evicted_is_handled_again Sample.ConnSize Sample.MappSize Sample.RetrySize
           Sample.IsNode Sample.IsClient Sample.crowded 1%nat
           {| Node.counter := 0; Node.at_point := Node.AtRead |}
           (Sample.message 7 "a") (Sample.message 7 "z") 5%nat).
  - vm_compute. reflexivity.
  - reflexivity.
  - vm_compute. discriminate.
  - vm_compute. reflexivity.
  - vm_compute. discriminate.
  - vm_compute. reflexivity.
  - vm_compute. reflexivity.
Defined.

Lemma role_of_connection_witness :
  exists w',
    Sample.step (Node.AcceptRole 1%nat Sample.IsClient) Sample.waiting = Some w'
    /\ Node.connections (Node.node w') = Node.connections (Node.node Sample.waiting)
    /\ (Sample.IsClient = Sample.IsClient ->
        Node.readers w' !! 1%nat
        = Some {| Node.counter := 0; Node.at_point := Node.AtRead |}
        /\ Node.closed w' = Node.closed Sample.waiting)
    /\ (Sample.IsClient <> Sample.IsClient ->
        Node.readers w' = Node.readers Sample.waiting /\ 1%nat ∈ Node.closed w').
Proof.
  apply (role_of_connection Sample.ConnSize Sample.MappSize Sample.RetrySize
           Sample.IsNode Sample.IsClient Sample.waiting 1%nat Sample.IsClient).
  - apply (bool_decide_unpack _). vm_compute. exact I.
  - vm_compute. discriminate.
Defined.

Lemma Connect_then_Disconnect_witness :
  exists w',
    Sample.run [Node.ConnectCheck 1%nat; Node.ConnectSet 1%nat;
                Node.CallDisconnect 1%nat] Node.NewWorld = Some w'
    /\ Node.connections (Node.node w') = Node.connections (Node.node Node.NewWorld)
    /\ 1%nat ∈ Node.closed w'
    /\ Node.readers w' !! 1%nat
       = Some {| Node.counter := 0; Node.at_point := Node.AtRead |}.
Proof.
  apply (Connect_then_Disconnect Sample.ConnSize Sample.MappSize Sample.RetrySize
           Sample.IsNode Sample.IsClient Node.NewWorld 1%nat).
  - vm_compute. discriminate.
  - vm_compute. reflexivity.
Defined.

Lemma two_readers_dispatch_twice_witness :
  exists w',
    Sample.run [Node.Recv 1%nat Sample.gossip; Node.Recv 2%nat Sample.gossip;
                Node.SetMapping 1%nat ""; Node.SetMapping 2%nat "";
                Node.RunHandleFunc 1%nat; Node.RunHandleFunc 2%nat]
      Sample.two_with_handler = Some w'
    /\ Node.calls w'
       = (5%nat, 2%nat, Sample.gossip) :: (5%nat, 1%nat, Sample.gossip)
         :: Node.calls Sample.two_with_handler.
Proof.
  apply (two_readers_dispatch_twice Sample.ConnSize Sample.MappSize Sample.RetrySize
           Sample.IsNode Sample.IsClient Sample.two_with_handler 1%nat 2%nat
           {| Node.counter := 0; Node.at_point := Node.AtRead |}
           {| Node.counter := 0; Node.at_point := Node.AtRead |}
           Sample.gossip 5%nat "" "").
  - discriminate.
  - vm_compute. reflexivity.
  - reflexivity.
  - vm_compute. discriminate.
  - vm_compute. reflexivity.
  - reflexivity.
  - vm_compute. discriminate.
  - vm_compute. reflexivity.
  - vm_compute. reflexivity.
  - vm_compute. reflexivity.
  - vm_compute. reflexivity.
Defined.
